(** * Argument marshaling of the contract-interface encoder (package abi)

    A shallow embedding of [Arguments] and its operations ([Pack],
    [PackPrefix], [UnpackValues], [Unpack], [UnpackIntoMap]) together with
    the properties of the argument-list-level layout: head/tail layout,
    offset bookkeeping, inline-flattened arrays and destination dispatch.

    The per-type codec and the reflection helpers [set] and
    [mapArgNamesToStructFields] live in other files of the package; the
    embedding is parametric in them (classes [TypeCodec] and [Reflection])
    and the properties hold for every instance. One instance, [StdCodec],
    is given to run the operations on concrete argument lists. The name
    helpers [capitalise] and [ToCamelCase] of the same file and the block
    names of package consensus ([makeBlockName]) are embedded as well.

    Go's [int] is modelled on 64 bits with its wrap-around; a call
    returns a value, an error or a panic ([result]); a destination that
    is mutated in place is returned next to the outcome. *)

From Stdlib Require Import ZArith Lia.
From stdpp Require Import base option list strings gmap vector.

#[local] Set Warnings "-register-all".
Local Open Scope Z_scope.

(* ===================================================================== *)
(** ** Machine integers *)
(* ===================================================================== *)

(** Go's [int] on a 64-bit platform: two's complement on 64 bits.
    [wrap_int] gives the representative of a mathematical integer. *)
Definition int_min : Z := - 2 ^ 63.
Definition int_max : Z := 2 ^ 63 - 1.

Definition wrap_int (z : Z) : Z := (z + 2 ^ 63) mod 2 ^ 64 - 2 ^ 63.

Definition int_add (a b : Z) : Z := wrap_int (a + b).
Definition int_sub (a b : Z) : Z := wrap_int (a - b).
Definition int_mul (a b : Z) : Z := wrap_int (a * b).

Definition in_int (z : Z) : Prop := int_min <= z <= int_max.

(** Two numbers that are the same machine integer. *)
Definition same_int (a b : Z) : Prop := a mod 2 ^ 64 = b mod 2 ^ 64.

(** [len(s)] of a slice, as an [int]. *)
Definition len {A} (l : list A) : Z := Z.of_nat (length l).

(* ===================================================================== *)
(** ** Bytes and big-endian numbers *)
(* ===================================================================== *)

Abbreviation byte := Byte.byte.

Definition byte_of_Z (z : Z) : byte :=
  default Byte.x00 (Byte.of_N (Z.to_N (z mod 256))).

Definition Z_of_byte (b : byte) : Z := Z.of_N (Byte.to_N b).

(** The [n] low-order base-256 digits of [z], most significant first.
    Negative numbers come out in two's complement. *)
Fixpoint be_bytes (n : nat) (z : Z) : list byte :=
  match n with
  | O => []
  | S n' => be_bytes n' (z / 256) ++ [byte_of_Z z]
  end.

Definition be_value (bs : list byte) : Z :=
  fold_left (fun acc b => acc * 256 + Z_of_byte b) bs 0.

(** Modelled from the spec: [packNum] lives in pack.go, outside the
    file embedded here; the spec has [Pack] emit "a 32-byte offset" for it.
    For an [int] it is the 32-byte big-endian encoding of the number
    (two's complement on 256 bits). *)
Definition packNum (offset : Z) : list byte := be_bytes 32 offset.

(** Modelled from the spec: [math.PaddedBigBytes] lives in common/math,
    outside the file embedded here; the spec has [PackPrefix] encode the
    count "as a fixed 2-byte big-endian value", i.e. on exactly [n]
    bytes. *)
Definition PaddedBigBytes (bigint : Z) (n : nat) : list byte := be_bytes n bigint.

(** [c_type.PKr]: a fixed-size address record, [96]byte. *)
Abbreviation PKr := (vec byte 96).

(* ===================================================================== *)
(** ** Errors, panics and results *)
(* ===================================================================== *)

Inductive error : Type :=
| ErrArgumentCount (got want : Z)   (* "argument count mismatch: %d for %d" *)
| ErrNonPointer                     (* "abi: Unpack(non-pointer %T)" *)
| ErrNoValues                       (* "abi: Unpack(no-values unmarshalled %T)" *)
| ErrNilMap                         (* "abi: cannot unpack into a nil map" *)
| ErrFieldNotFound (name : string)  (* "abi: field %s can't be found in the given value" *)
| ErrInsufficient (want got : Z)    (* "abi: insufficient number of arguments for unpack, want %d, got %d" *)
| ErrTupleDestination               (* "abi:[2] cannot unmarshal tuple in to %v" *)
| ErrCollaborator (msg : string).   (* any error of the codec or of the reflection helpers *)

Inductive panic : Type :=
| NilDereference
| IndexOutOfRange
| ZeroValue.

(** The outcome of a Go call returning [(A, error)]: a value, an error,
    or a run-time panic. *)
Inductive result (A : Type) : Type :=
| Ok (a : A)
| Err (e : error)
| Panic (p : panic).
Arguments Ok {A} a.
Arguments Err {A} e.
Arguments Panic {A} p.

#[global] Instance result_ret : MRet result := @Ok.
#[global] Instance result_bind : MBind result := fun A B f m =>
  match m with
  | Ok a => f a
  | Err e => Err e
  | Panic p => Panic p
  end.

Definition is_Ok {A} (r : result A) : bool :=
  match r with Ok _ => true | _ => false end.

(* ===================================================================== *)
(** ** Types and arguments *)
(* ===================================================================== *)

(** The kind tag [Type.T]. *)
Inductive TyKind : Type :=
| IntTy | UintTy | BoolTy | StringTy | SliceTy | ArrayTy | TupleTy
| AddressTy | FixedBytesTy | BytesTy | HashTy | FixedPointTy | FunctionTy.

#[global] Instance TyKind_eq_dec : EqDecision TyKind.
Proof. solve_decision. Defined.

(** Modelled from the spec: the declaration of [Type] lives in type.go,
    outside the file embedded here; the core consults its kind tag [T],
    the declared dimension [Size] and the element type [Elem], a pointer
    that is nil when the type has no element type. *)
Inductive AbiType : Type :=
  MkType { T : TyKind; Size : Z; Elem : option AbiType }.

Record Argument : Type := MkArgument {
  Name : string;
  Type_ : AbiType;
  Indexed : bool (* indexed is only used by events *)
}.

Abbreviation Arguments := (list Argument).

(* ===================================================================== *)
(** ** Run-time values and destinations *)
(* ===================================================================== *)

(** What an [interface{}] or a [reflect.Value] can hold, as far as the
    marshaling layer tells values apart. Numbers of every integer type,
    big integers included, are [VInt]. *)
Inductive value : Type :=
| VInvalid                                  (* nil interface, zero reflect.Value *)
| VBool (b : bool)
| VInt (n : Z)
| VString (s : string)
| VSlice (elems : list value)
| VArray (elems : list value)
| VStruct (fields : list (string * value)).

Inductive Kind : Type :=
| KInvalid | KBool | KInt | KString | KSlice | KArray | KStruct.

#[global] Instance Kind_eq_dec : EqDecision Kind.
Proof. solve_decision. Defined.

Definition kind_of (v : value) : Kind :=
  match v with
  | VInvalid => KInvalid
  | VBool _ => KBool
  | VInt _ => KInt
  | VString _ => KString
  | VSlice _ => KSlice
  | VArray _ => KArray
  | VStruct _ => KStruct
  end.

(** The destination [v interface{}] handed to [Unpack]: either something
    that is not a pointer, or a pointer together with what it points to
    (a nil pointer points to [VInvalid]: [Elem()] of it is the zero
    [reflect.Value]). *)
Inductive dest : Type :=
| NonPtr (x : value)
| PtrTo (x : value).

(** [value.FieldByName(name)]: position and content of the field. *)
Fixpoint FieldByName (fields : list (string * value)) (name : string)
  : option (nat * value) :=
  match fields with
  | [] => None
  | (f, x) :: rest =>
      if decide (f = name) then Some (O, x)
      else '(j, y) ← FieldByName rest name; Some (S j, y)
  end.

(** Storing [x] into field number [j]. *)
Definition store_field (fields : list (string * value)) (j : nat) (x : value)
  : list (string * value) :=
  match fields !! j with
  | Some (f, _) => <[j := (f, x)]> fields
  | None => fields
  end.

(* ===================================================================== *)
(** ** Collaborators *)
(* ===================================================================== *)

(** The per-type codec consumed by the argument list. *)
Class TypeCodec : Type := {
  pack : AbiType → value → result (list byte);
  requiresLengthPrefix : AbiType → bool;
  getAllAddress : AbiType → value → result (list PKr);
  toGoType : Z → AbiType → list byte → result value
}.

(** The reflection helpers: [set dst src] gives the new content of the
    location [dst]; [mapArgNamesToStructFields] resolves argument names
    to field names of a struct. *)
Class Reflection : Type := {
  set : value → value → result value;
  mapArgNamesToStructFields : list string → value → result (gmap string string)
}.

(* ===================================================================== *)
(** ** The argument list *)
(* ===================================================================== *)

(** LengthNonIndexed returns the number of arguments when not counting
    'indexed' ones. *)
Definition LengthNonIndexed (arguments : Arguments) : Z :=
  fold_left (fun out arg => if Indexed arg then out else int_add out 1)
            arguments 0.

(** NonIndexed returns the arguments with indexed arguments filtered out. *)
Definition NonIndexed (arguments : Arguments) : Arguments :=
  fold_left (fun ret arg => if Indexed arg then ret else ret ++ [arg])
            arguments [].

(** isTuple returns true for non-atomic constructs. *)
Definition isTuple (arguments : Arguments) : bool :=
  bool_decide (len arguments > 1).

Definition isArrayTy (t : AbiType) : bool := bool_decide (T t = ArrayTy).

(** The loop of [getArraySize]: [arr] is the current, non-nil, element
    type. Reading [arr.Elem.T] through a nil [Elem] panics. *)
Fixpoint getArraySize_loop (size : Z) (arr : AbiType) : result Z :=
  match arr with
  | MkType ArrayTy n next =>
      match next with
      | Some e => getArraySize_loop (int_mul size n) e
      | None => Panic NilDereference
      end
  | MkType _ _ _ => Ok size
  end.

(** Computes the full size of an array; i.e. counting nested arrays,
    which count towards size for unpacking. *)
Definition getArraySize (arr : AbiType) : result Z :=
  match Elem arr with
  | Some e => getArraySize_loop (Size arr) e
  | None => Panic NilDereference
  end.

Section Marshaling.
Context `{codec : TypeCodec} `{refl : Reflection}.

(** The loop of [UnpackValues] over [arguments.NonIndexed()], from
    position [index] on. *)
Fixpoint UnpackValues_loop (data : list byte) (index : nat)
    (nonIndexed : list Argument) (virtualArgs : Z) (retval : list value)
  : result (list value) :=
  match nonIndexed with
  | [] => Ok retval
  | arg :: rest =>
      let decoded :=
        toGoType (int_mul (int_add (Z.of_nat index) virtualArgs) 32)
                 (Type_ arg) data in
      virtualArgs' ←
        (if isArrayTy (Type_ arg)
         then size ← getArraySize (Type_ arg);
              Ok (int_add virtualArgs (int_sub size 1))
         else Ok virtualArgs);
      marshalledValue ← decoded;
      UnpackValues_loop data (S index) rest virtualArgs'
                        (retval ++ [marshalledValue])
  end.

Definition UnpackValues (arguments : Arguments) (data : list byte)
  : result (list value) :=
  UnpackValues_loop data O (NonIndexed arguments) 0 [].

(** The input offset of [Pack]: the byte size it ascribes to the head. *)
Definition inputOffset (abiArgs : Arguments) : Z :=
  fold_left (fun off abiArg =>
               if isArrayTy (Type_ abiArg)
               then int_add off (int_mul 32 (Size (Type_ abiArg)))
               else int_add off 32)
            abiArgs 0.

(** The second loop of [Pack], over the values from position [i] on. *)
Fixpoint Pack_loop (abiArgs : Arguments) (inputOffset : Z) (i : nat)
    (args : list value) (ret variableInput : list byte)
  : result (list byte) :=
  match args with
  | [] => Ok (ret ++ variableInput)
  | a :: rest =>
      match abiArgs !! i with
      | None => Panic IndexOutOfRange
      | Some input =>
          packed ← pack (Type_ input) a;
          if requiresLengthPrefix (Type_ input) then
            let offset := int_add inputOffset (len variableInput) in
            Pack_loop abiArgs inputOffset (S i) rest
                      (ret ++ packNum offset) (variableInput ++ packed)
          else
            Pack_loop abiArgs inputOffset (S i) rest
                      (ret ++ packed) variableInput
      end
  end.

(** Pack performs the operation Go format -> Hexdata. *)
Definition Pack (arguments : Arguments) (args : list value)
  : result (list byte) :=
  let abiArgs := arguments in
  if decide (len args ≠ len abiArgs)
  then Err (ErrArgumentCount (len args) (len abiArgs))
  else Pack_loop abiArgs (inputOffset abiArgs) O args [] [].

(** PackValues is the semantic opposite of UnpackValues. *)
Definition PackValues (arguments : Arguments) (args : list value)
  : result (list byte) :=
  Pack arguments args.

(** The first loop of [PackPrefix]. *)
Fixpoint PackPrefix_loop (abiArgs : Arguments) (i : nat)
    (args : list value) (result_ : list PKr) : result (list PKr) :=
  match args with
  | [] => Ok result_
  | a :: rest =>
      match abiArgs !! i with
      | None => Panic IndexOutOfRange
      | Some input =>
          pkrs ← getAllAddress (Type_ input) a;
          PackPrefix_loop abiArgs (S i) rest (result_ ++ pkrs)
      end
  end.

Definition PackPrefix (arguments : Arguments) (args : list value)
  : result (list byte) :=
  let abiArgs := arguments in
  if decide (len args ≠ len abiArgs)
  then Err (ErrArgumentCount (len args) (len abiArgs))
  else
    result_ ← PackPrefix_loop abiArgs O args [];
    let lenBytes := PaddedBigBytes (len result_) 2 in
    Ok (fold_left (fun ret (pkr : PKr) => ret ++ vec_to_list pkr)
                  result_ lenBytes).

(* ------------------------------------------------------------------- *)
(** *** Decoding into a destination *)

(** unpackIntoMap unpacks marshalledValues into the provided map; the
    loop over [arguments.NonIndexed()] from position [i] on. The map is
    mutated in place: the first component is the map as it is left. *)
Fixpoint unpackIntoMap_loop (i : nat) (nonIndexed : list Argument)
    (marshalledValues : list value) (v : gmap string value)
  : gmap string value * result unit :=
  match nonIndexed with
  | [] => (v, Ok ())
  | arg :: rest =>
      match marshalledValues !! i with
      | None => (v, Panic IndexOutOfRange)
      | Some x =>
          unpackIntoMap_loop (S i) rest marshalledValues (<[Name arg := x]> v)
      end
  end.

(** A nil map is [None]. *)
Definition unpackIntoMap (arguments : Arguments)
    (v : option (gmap string value)) (marshalledValues : list value)
  : option (gmap string value) * result unit :=
  match v with
  | None => (None, Err ErrNilMap)
  | Some m =>
      let '(m', r) :=
        unpackIntoMap_loop O (NonIndexed arguments) marshalledValues m in
      (Some m', r)
  end.

(** UnpackIntoMap performs the operation hexdata -> mapping of argument
    name to argument value. *)
Definition UnpackIntoMap (arguments : Arguments)
    (v : option (gmap string value)) (data : list byte)
  : option (gmap string value) * result unit :=
  match UnpackValues arguments data with
  | Ok marshalledValues => unpackIntoMap arguments v marshalledValues
  | Err e => (v, Err e)
  | Panic p => (v, Panic p)
  end.

(** The struct case of [unpackTuple]: the second loop, from position
    [i] on; [fields] are the fields of the destination as they are now. *)
Fixpoint unpackTuple_struct_loop (abi2struct : gmap string string)
    (i : nat) (nonIndexedArgs : list Argument)
    (marshalledValues : list value) (fields : list (string * value))
  : list (string * value) * result unit :=
  match nonIndexedArgs with
  | [] => (fields, Ok ())
  | arg :: rest =>
      match FieldByName fields (default EmptyString (abi2struct !! Name arg)) with
      | None => (fields, Err (ErrFieldNotFound (Name arg)))
      | Some (j, field) =>
          match marshalledValues !! i with
          | None => (fields, Panic IndexOutOfRange)
          | Some x =>
              match set field x with
              | Ok field' =>
                  unpackTuple_struct_loop abi2struct (S i) rest
                    marshalledValues (store_field fields j field')
              | Err e => (fields, Err e)
              | Panic p => (fields, Panic p)
              end
          end
      end
  end.

(** The slice/array case of [unpackTuple]: the loop, from position [i]. *)
Fixpoint unpackTuple_index_loop (i : nat) (nonIndexedArgs : list Argument)
    (marshalledValues : list value) (elems : list value)
  : list value * result unit :=
  match nonIndexedArgs with
  | [] => (elems, Ok ())
  | _ :: rest =>
      match elems !! i, marshalledValues !! i with
      | Some slot, Some x =>
          match set slot x with
          | Ok slot' =>
              unpackTuple_index_loop (S i) rest marshalledValues
                                     (<[i := slot']> elems)
          | Err e => (elems, Err e)
          | Panic p => (elems, Panic p)
          end
      | _, _ => (elems, Panic IndexOutOfRange)
      end
  end.

(** unpackTuple unpacks ( hexdata -> go ) a batch of values. [val] is
    what the destination pointer points to; the first component of the
    outcome is what it points to afterwards. *)
Definition unpackTuple (arguments : Arguments) (val : value)
    (marshalledValues : list value) : value * result unit :=
  let nonIndexedArgs := NonIndexed arguments in
  match val with
  | VStruct fields =>
      let argNames := map Name nonIndexedArgs in
      match mapArgNamesToStructFields argNames val with
      | Ok abi2struct =>
          let '(fields', r) :=
            unpackTuple_struct_loop abi2struct O nonIndexedArgs
                                    marshalledValues fields in
          (VStruct fields', r)
      | Err e => (val, Err e)
      | Panic p => (val, Panic p)
      end
  | VSlice elems =>
      if decide (len elems < len marshalledValues)
      then (val, Err (ErrInsufficient (len arguments) (len elems)))
      else
        let '(elems', r) :=
          unpackTuple_index_loop O nonIndexedArgs marshalledValues elems in
        (VSlice elems', r)
  | VArray elems =>
      if decide (len elems < len marshalledValues)
      then (val, Err (ErrInsufficient (len arguments) (len elems)))
      else
        let '(elems', r) :=
          unpackTuple_index_loop O nonIndexedArgs marshalledValues elems in
        (VArray elems', r)
  | VInvalid => (val, Panic ZeroValue)
  | _ => (val, Err ErrTupleDestination)
  end.

(** The outcome of [set] on a location holding [old], written back
    through [store]. *)
Definition assign (old : value) (store : value → value) (r : result value)
  : value * result unit :=
  match r with
  | Ok x => (store x, Ok ())
  | Err e => (old, Err e)
  | Panic p => (old, Panic p)
  end.

(** unpackAtomic unpacks ( hexdata -> go ) a single value. *)
Definition unpackAtomic (arguments : Arguments) (dst : value)
    (marshalledValues : value) : value * result unit :=
  let src := marshalledValues in
  match dst with
  | VStruct fields =>
      if decide (kind_of src ≠ KStruct) then
        match fields with
        | (f, field0) :: rest =>
            assign dst (fun x => VStruct ((f, x) :: rest)) (set field0 src)
        | [] => (dst, Panic IndexOutOfRange)
        end
      else assign dst id (set dst src)
  | _ => assign dst id (set dst src)
  end.

(** Unpack performs the operation hexdata -> Go format. *)
Definition Unpack (arguments : Arguments) (v : dest) (data : list byte)
  : dest * result unit :=
  match v with
  | NonPtr _ => (v, Err ErrNonPointer)
  | PtrTo x =>
      match UnpackValues arguments data with
      | Err e => (v, Err e)
      | Panic p => (v, Panic p)
      | Ok marshalledValues =>
          match marshalledValues with
          | [] => (v, Err ErrNoValues)
          | first :: _ =>
              let '(x', r) :=
                if isTuple arguments
                then unpackTuple arguments x marshalledValues
                else unpackAtomic arguments x first in
              (PtrTo x', r)
          end
      end
  end.

End Marshaling.

(* ===================================================================== *)
(** ** Name helpers *)
(* ===================================================================== *)

(** A Go string is a sequence of bytes, here a [string] of 8-bit
    characters. *)
Definition underscore : Ascii.ascii := Ascii.ascii_of_nat 95.

(** [strings.ToUpper] of the Go standard library on a string of one
    byte: a lower-case ASCII letter becomes the upper-case one, any other
    ASCII byte stays, and a byte from 0x80 on, which is no valid UTF-8 on
    its own, becomes the replacement character U+FFFD (EF BF BD). *)
Definition ToUpper1 (c : Ascii.ascii) : string :=
  let n := Ascii.nat_of_ascii c in
  if (97 <=? n)%nat && (n <=? 122)%nat
  then String (Ascii.ascii_of_nat (n - 32)) EmptyString
  else if (n <? 128)%nat then String c EmptyString
  else String (Ascii.ascii_of_nat 239)
         (String (Ascii.ascii_of_nat 191) (String (Ascii.ascii_of_nat 189) EmptyString)).

(** The first loop of [capitalise]: dropping the prefixing underscores. *)
Fixpoint capitalise_loop (input : string) : string :=
  match input with
  | String c rest =>
      if decide (c = underscore) then capitalise_loop rest else input
  | EmptyString => EmptyString
  end.

(** capitalise makes the first character of a string upper case, also
    removing any prefixing underscores from the variable names. *)
Definition capitalise (input : string) : string :=
  match capitalise_loop input with
  | EmptyString => EmptyString
  | String c rest => String.append (ToUpper1 c) rest
  end.

(** [strings.Split(input, "_")]: the pieces between the underscores; a
    string without underscore is its own single piece, the empty string
    included. *)
Fixpoint Split (input : string) : list string :=
  match input with
  | EmptyString => [EmptyString]
  | String c rest =>
      if decide (c = underscore) then EmptyString :: Split rest
      else match Split rest with
           | s :: parts => String c s :: parts
           | [] => [String c EmptyString]
           end
  end.

(** [strings.Join(parts, "")] *)
Definition Join (parts : list string) : string :=
  foldr String.append EmptyString parts.

(** ToCamelCase converts an under-score string to a camel-case string. *)
Definition ToCamelCase (input : string) : string :=
  Join ((fun s => match s with
                  | EmptyString => s
                  | String c rest => String.append (ToUpper1 c) rest
                  end) <$> Split input).

(** Whether a string holds the byte [c]. *)
Fixpoint holds (c : Ascii.ascii) (s : string) : bool :=
  match s with
  | EmptyString => false
  | String d rest => bool_decide (d = c) || holds c rest
  end.

(** Whether a byte is ASCII. *)
Definition isASCII (c : Ascii.ascii) : bool := (Ascii.nat_of_ascii c <? 128)%nat.

(* ===================================================================== *)
(** ** The layout as the specification words it *)
(* ===================================================================== *)

(** The full flattened size of an array type: its declared dimension size
    multiplied by the declared dimension size of every nested array level
    below it; anything that is not an array counts for one slot. *)
Fixpoint flattenedSize (t : AbiType) : Z :=
  match t with
  | MkType ArrayTy n (Some e) => n * flattenedSize e
  | MkType _ _ _ => 1
  end.

(** Every array level has an element type. *)
Fixpoint has_elems (t : AbiType) : bool :=
  match t with
  | MkType ArrayTy _ (Some e) => has_elems e
  | MkType ArrayTy _ None => false
  | MkType _ _ _ => true
  end.

(** The slot positions of the decoder: the argument at filtered position
    [i] sits at byte offset [(i + virtualArgs) * 32], and after an
    array-typed argument [virtualArgs] grows by its full flattened size
    minus one. *)
Fixpoint decodeOffsets (i virtualArgs : Z) (nonIndexed : list Argument)
  : list (Z * AbiType) :=
  match nonIndexed with
  | [] => []
  | arg :: rest =>
      ((i + virtualArgs) * 32, Type_ arg)
      :: decodeOffsets (i + 1)
           (if isArrayTy (Type_ arg)
            then virtualArgs + (flattenedSize (Type_ arg) - 1)
            else virtualArgs)
           rest
  end.

(** headSize: 32 bytes per argument, except that an array-typed argument
    contributes 32 times its own declared dimension size. *)
Definition headSize (abiArgs : Arguments) : Z :=
  foldr (fun abiArg acc =>
           (if isArrayTy (Type_ abiArg) then 32 * Size (Type_ abiArg) else 32)
           + acc)
        0 abiArgs.

(** The items of the layout: each argument's type with its packed bytes. *)
Definition layoutItems (abiArgs : Arguments) (packed : list (list byte))
  : list (AbiType * list byte) :=
  zip (Type_ <$> abiArgs) packed.

Section Layout.
Context `{codec : TypeCodec}.

(** Decoding every slot of a list of positions, in order; the first
    failure is the outcome. *)
Definition decodeAt (data : list byte) (slots : list (Z * AbiType))
  : result (list value) :=
  mapM (fun slot => toGoType slot.1 slot.2 data) slots.

(** The tail: the packed payloads of the arguments that require a length
    prefix, in argument order. *)
Fixpoint layoutTail (items : list (AbiType * list byte)) : list byte :=
  match items with
  | [] => []
  | (t, packed) :: rest =>
      (if requiresLengthPrefix t then packed else []) ++ layoutTail rest
  end.

(** The head: for an argument that requires a length prefix the offset
    [headSize + currentTailLength], else its packed bytes inline. *)
Fixpoint layoutHead (headSize currentTailLength : Z)
    (items : list (AbiType * list byte)) : list byte :=
  match items with
  | [] => []
  | (t, packed) :: rest =>
      if requiresLengthPrefix t
      then packNum (headSize + currentTailLength)
           ++ layoutHead headSize (currentTailLength + len packed) rest
      else packed ++ layoutHead headSize currentTailLength rest
  end.
End Layout.

(** An array type is flat when its elements are not arrays; its declared
    dimension size is then its full flattened size. *)
Definition flatArray (t : AbiType) : bool :=
  match t with
  | MkType ArrayTy _ (Some e) => negb (isArrayTy e)
  | MkType ArrayTy _ None => false
  | MkType _ _ _ => true
  end.

(** An argument the round trip covers: of a [static] type that is no
    nested array, or of a [dynamic] type. *)
Definition covered (static dynamic : AbiType → Prop) (arg : Argument) : Prop :=
  (static (Type_ arg) ∧ flatArray (Type_ arg) = true) ∨ dynamic (Type_ arg).

(** What [Unpack] leaves behind a pointer destination. *)
Definition through_ptr (o : value * result unit) : dest * result unit :=
  (PtrTo o.1, o.2).

(** The value bound to [k] by the last binding for it in a list. *)
Fixpoint lastBinding (k : string) (bindings : list (string * value))
  : option value :=
  match bindings with
  | [] => None
  | (n, x) :: rest =>
      match lastBinding k rest with
      | Some y => Some y
      | None => if decide (n = k) then Some x else None
      end
  end.

(** The bindings written one after the other, in list order. *)
Definition assignAll (bindings : list (string * value)) (m : gmap string value)
  : gmap string value :=
  fold_left (fun m b => <[b.1 := b.2]> m) bindings m.

(* ===================================================================== *)
(** ** A codec instance *)
(* ===================================================================== *)

(** Modelled from the spec: the per-type codec lives in type.go, pack.go
    and unpack.go, outside the file embedded here. This instance follows
    what the spec says of it: fixed-size scalars take one 32-byte slot,
    fully fixed-size arrays are flattened to their complete inline byte
    form, strings, byte arrays and dynamic arrays require a length prefix
    and are decoded through the offset found in their head slot, and a
    fixed array is decoded from the contiguous slots at its position. It
    covers unsigned integers, booleans, byte arrays, fixed arrays, dynamic
    arrays and addresses; other kinds are refused. *)
Module StdCodec.

Definition unsupported {A} : result A := Err (ErrCollaborator "unsupported").
Definition mismatch {A} : result A := Err (ErrCollaborator "type mismatch").
Definition short {A} : result A := Err (ErrCollaborator "length insufficient").

(** [output[lo:hi]] *)
Definition slice (lo hi : Z) (output : list byte) : list byte :=
  take (Z.to_nat (hi - lo)) (drop (Z.to_nat lo) output).

Definition byte_of_value (v : value) : result byte :=
  match v with
  | VInt n => if decide (0 <= n < 256) then Ok (byte_of_Z n) else mismatch
  | _ => mismatch
  end.

Definition RightPadBytes (bs : list byte) (l : nat) : list byte :=
  bs ++ replicate (l - length bs) Byte.x00.

(** The length followed by the payload, padded to whole slots. *)
Definition packBytesSlice (bs : list byte) (l : Z) : list byte :=
  packNum l ++ RightPadBytes bs ((length bs + 31) / 32 * 32)%nat.

(** Modelled from the spec: [Type.requiresLengthPrefix]; strings, byte
    arrays and dynamic arrays are dynamically sized. *)
Definition requiresLengthPrefix (t : AbiType) : bool :=
  match T t with
  | StringTy | BytesTy | SliceTy => true
  | _ => false
  end.

(** Modelled from the spec: [Type.pack]; a scalar on one slot, a fixed
    array as its elements one after the other, a byte array and a dynamic
    array behind their length. *)
Fixpoint pack (t : AbiType) (v : value) : result (list byte) :=
  match t with
  | MkType UintTy _ _ =>
      match v with
      | VInt n => if decide (0 <= n < 2 ^ 256) then Ok (packNum n) else mismatch
      | _ => mismatch
      end
  | MkType BoolTy _ _ =>
      match v with
      | VBool b => Ok (packNum (if b then 1 else 0))
      | _ => mismatch
      end
  | MkType BytesTy _ _ =>
      match v with
      | VSlice elems =>
          bs ← mapM byte_of_value elems;
          Ok (packBytesSlice bs (len bs))
      | _ => mismatch
      end
  | MkType ArrayTy n (Some e) =>
      match v with
      | VArray elems =>
          if decide (len elems = n)
          then packed ← mapM (pack e) elems; Ok (concat packed)
          else mismatch
      | _ => mismatch
      end
  | MkType SliceTy _ (Some e) =>
      match v with
      | VSlice elems =>
          packed ← mapM (pack e) elems;
          Ok (packNum (len elems) ++ concat packed)
      | _ => mismatch
      end
  | MkType _ _ _ => unsupported
  end.

(** Where the payload of a dynamic value starts, and its length. *)
Definition lengthPrefixPointsTo (index : Z) (output : list byte)
  : result (Z * Z) :=
  let offset := be_value (slice index (index + 32) output) in
  if decide (offset + 32 > len output) then short
  else
    let length := be_value (slice offset (offset + 32) output) in
    if decide (offset + 32 + length > len output) then short
    else Ok (offset + 32, length).

(** Modelled from the spec: [toGoType], the decode-at-offset primitive;
    it resolves the offset of a dynamic type and reads a fixed array from
    the contiguous slots at [index]. *)
Fixpoint toGoType (index : Z) (t : AbiType) (output : list byte)
  : result value :=
  if decide (index < 0 ∨ index + 32 > len output) then short
  else
    match t with
    | MkType UintTy _ _ => Ok (VInt (be_value (slice index (index + 32) output)))
    | MkType BoolTy _ _ =>
        match be_value (slice index (index + 32) output) with
        | 0 => Ok (VBool false)
        | 1 => Ok (VBool true)
        | _ => mismatch
        end
    | MkType BytesTy _ _ =>
        '(begin, length) ← lengthPrefixPointsTo index output;
        Ok (VSlice ((fun b => VInt (Z_of_byte b))
                      <$> slice begin (begin + length) output))
    | MkType ArrayTy n (Some e) =>
        if decide (n < 0 ∨ index + 32 * n > len output) then short
        else
          elems ← mapM (fun j => toGoType (index + j * (32 * flattenedSize e)) e output)
                       (seqZ 0 n);
          Ok (VArray elems)
    | MkType SliceTy _ (Some e) =>
        '(begin, length) ← lengthPrefixPointsTo index output;
        if decide (begin + 32 * length > len output) then short
        else
          elems ← mapM (fun j => toGoType (begin + j * 32) e output)
                       (seqZ 0 length);
          Ok (VSlice elems)
    | MkType _ _ _ => unsupported
    end.

(** The types this codec lays out inline and decodes in place: unsigned
    integers, booleans and non-empty fixed arrays of such types. *)
Fixpoint static (t : AbiType) : bool :=
  match t with
  | MkType UintTy _ _ | MkType BoolTy _ _ => true
  | MkType ArrayTy n (Some e) => bool_decide (0 < n) && static e
  | MkType _ _ _ => false
  end.

(** The byte arrays, which it decodes through their offset. *)
Definition dynamic (t : AbiType) : bool := bool_decide (T t = BytesTy).

(** An address record from its bytes. *)
Definition pkr_of (bs : list byte) : PKr :=
  fun_to_vec (fun i => default Byte.x00 (bs !! fin_to_nat i)).

(** Modelled from the spec: [Type.getAllAddress]; the addresses embedded
    in a value, in order, none for a type that holds no address. *)
Fixpoint getAllAddress (t : AbiType) (v : value) : result (list PKr) :=
  match t with
  | MkType AddressTy _ _ =>
      match v with
      | VArray elems =>
          if decide (length elems = 96%nat)
          then bs ← mapM byte_of_value elems; Ok [pkr_of bs]
          else mismatch
      | _ => mismatch
      end
  | MkType ArrayTy _ (Some e) | MkType SliceTy _ (Some e) =>
      match v with
      | VArray elems | VSlice elems =>
          pkrs ← mapM (getAllAddress e) elems; Ok (concat pkrs)
      | _ => mismatch
      end
  | MkType _ _ _ => Ok []
  end.

Definition codec : TypeCodec :=
  Build_TypeCodec pack requiresLengthPrefix getAllAddress toGoType.

(** Modelled from the spec: the reflection helpers live in reflect.go,
    outside the file embedded here. [set] assigns a value to a location
    holding a value of the same kind (or holding nothing yet) and
    refuses any other; the field resolution maps every argument name to
    the field of that very name and fails when there is none. *)
Definition set (dst src : value) : result value :=
  if decide (kind_of dst = kind_of src ∨ kind_of dst = KInvalid) then Ok src
  else Err (ErrCollaborator "cannot unmarshal").

Definition mapArgNamesToStructFields (argNames : list string) (v : value)
  : result (gmap string string) :=
  match v with
  | VStruct fields =>
      if decide (Forall (fun n => is_Some (FieldByName fields n)) argNames)
      then Ok (list_to_map ((fun n => (n, n)) <$> argNames))
      else Err (ErrCollaborator "no matching field")
  | _ => Err (ErrCollaborator "not a struct")
  end.

Definition refl : Reflection :=
  Build_Reflection set mapArgNamesToStructFields.

End StdCodec.

(* ===================================================================== *)
(** ** Sample argument lists *)
(* ===================================================================== *)

Module Samples.

Definition uint256 : AbiType := MkType UintTy 256 None.
Definition bytesTy : AbiType := MkType BytesTy 0 None.
Definition arrayOf (n : Z) (e : AbiType) : AbiType := MkType ArrayTy n (Some e).

Definition plain (name : string) (t : AbiType) : Argument :=
  MkArgument name t false.
Definition indexed (name : string) (t : AbiType) : Argument :=
  MkArgument name t true.

Definition bytesOf (l : list Z) : value := VSlice (VInt <$> l).

(** [dynamicBytes, uint256, dynamicBytes] *)
Definition mixedArgs : Arguments :=
  [plain "memo" bytesTy; plain "amount" uint256; plain "note" bytesTy].
Definition mixedValues : list value :=
  [bytesOf [1; 2; 3]; VInt 77; bytesOf [9]].
Definition mixedPacked : list (list byte) :=
  [StdCodec.packBytesSlice (byte_of_Z <$> [1; 2; 3]) 3;
   packNum 77;
   StdCodec.packBytesSlice (byte_of_Z <$> [9]) 1].

(** An array of 2, of array of 3, of uint256. *)
Definition grid : AbiType := arrayOf 2 (arrayOf 3 uint256).
Definition gridValue : value :=
  VArray [VArray [VInt 1; VInt 2; VInt 3]; VArray [VInt 4; VInt 5; VInt 6]].

(** A nested array followed by a scalar. *)
Definition gridThenUint : Arguments := [plain "grid" grid; plain "n" uint256].

(** A nested array followed by a dynamic argument. *)
Definition gridThenBytes : Arguments := [plain "grid" grid; plain "memo" bytesTy].
Definition gridThenBytesValues : list value := [gridValue; bytesOf [171]].

(** One indexed and one non-indexed argument, as in an event. *)
Definition eventArgs : Arguments := [indexed "from" uint256; plain "amount" uint256].

(** An address argument followed by a scalar. *)
Definition addressTy : AbiType := MkType AddressTy 0 None.
Definition addressArgs : Arguments := [plain "to" addressTy; plain "amount" uint256].
Definition someAddress : value := VArray (VInt <$> replicate 96 7).
Definition somePKr : PKr := StdCodec.pkr_of (replicate 96 (byte_of_Z 7)).

(** A struct destination with two fields. *)
Definition pairStruct : value := VStruct [("amount", VInt 0); ("fee", VInt 0)].

End Samples.

(* ===================================================================== *)
(** ** Block names (package consensus) *)
(* ===================================================================== *)

Module Consensus.

(** [[]byte(pre)]: the bytes of a string. *)
Fixpoint bytesOf (s : string) : list byte :=
  match s with
  | EmptyString => []
  | String c rest => Ascii.byte_of_ascii c :: bytesOf rest
  end.

(** The number of bytes of a natural number written without leading
    zero byte; none for 0. *)
Definition byteLength (z : Z) : nat :=
  if decide (z = 0) then O else Z.to_nat (Z.log2 z / 8 + 1).

(** [big.Int.Bytes] of the Go standard library: the absolute value as a
    big-endian byte slice, without leading zero bytes. *)
Definition Bytes (x : Z) : list byte :=
  be_bytes (byteLength (Z.abs x)) (Z.abs x).

(** [makeBlockName]: [num] is a [uint64], which [int64(num)] reads as a
    signed number; [hash] is what the pointer points to, a byte array of
    a fixed length. *)
Definition makeBlockName (pre : string) (num : Z) (hash : list byte)
  : list byte :=
  let ret := bytesOf pre in
  let ret := ret ++ Bytes (wrap_int num) in
  let ret := ret ++ hash in
  ret.

End Consensus.

(* ===================================================================== *)
(** ** Machine arithmetic *)
(* ===================================================================== *)

Lemma wrap_int_id z : in_int z → wrap_int z = z.
Proof.
  unfold in_int, int_min, int_max, wrap_int. intros Hz.
  rewrite Z.mod_small; lia.
Qed.

Lemma wrap_int_in_int z : in_int (wrap_int z).
Proof.
  unfold in_int, int_min, int_max, wrap_int.
  pose proof (Z.mod_pos_bound (z + 2 ^ 63) (2 ^ 64)). lia.
Qed.

Lemma wrap_int_mod z : wrap_int z mod 2 ^ 64 = z mod 2 ^ 64.
Proof.
  unfold wrap_int.
  rewrite Zminus_mod, Zmod_mod, <- Zminus_mod. f_equal. lia.
Qed.

Lemma wrap_int_eq a b : a mod 2 ^ 64 = b mod 2 ^ 64 → wrap_int a = wrap_int b.
Proof.
  intros H. unfold wrap_int.
  rewrite (Zplus_mod a), (Zplus_mod b), H. reflexivity.
Qed.

Lemma same_int_refl a : same_int a a.
Proof. reflexivity. Qed.

Lemma same_int_wrap a b : same_int a b → same_int (wrap_int a) b.
Proof. unfold same_int. intros <-. apply wrap_int_mod. Qed.

Lemma same_int_add a a' b b' :
  same_int a a' → same_int b b' → same_int (int_add a b) (a' + b').
Proof.
  unfold same_int, int_add. intros Ha Hb.
  rewrite wrap_int_mod, Zplus_mod, Ha, Hb, <- Zplus_mod. reflexivity.
Qed.

Lemma same_int_sub a a' b b' :
  same_int a a' → same_int b b' → same_int (int_sub a b) (a' - b').
Proof.
  unfold same_int, int_sub. intros Ha Hb.
  rewrite wrap_int_mod, Zminus_mod, Ha, Hb, <- Zminus_mod. reflexivity.
Qed.

Lemma same_int_mul a a' b b' :
  same_int a a' → same_int b b' → same_int (int_mul a b) (a' * b').
Proof.
  unfold same_int, int_mul. intros Ha Hb.
  rewrite wrap_int_mod, Zmult_mod, Ha, Hb, <- Zmult_mod. reflexivity.
Qed.

Lemma same_int_exact a b : in_int a → in_int b → same_int a b → a = b.
Proof.
  intros Ha Hb H. rewrite <- (wrap_int_id a Ha), <- (wrap_int_id b Hb).
  by apply wrap_int_eq.
Qed.

Lemma int_add_in_int a b : in_int (int_add a b).
Proof. apply wrap_int_in_int. Qed.

Lemma int_mul_in_int a b : in_int (int_mul a b).
Proof. apply wrap_int_in_int. Qed.

Lemma len_nonneg {A} (l : list A) : 0 <= len l.
Proof. unfold len. lia. Qed.

Lemma len_app {A} (l k : list A) : len (l ++ k) = len l + len k.
Proof. unfold len. rewrite length_app. lia. Qed.

Lemma len_in_int {A} (l : list A) : len l <= int_max → in_int (len l).
Proof. unfold in_int, int_min. pose proof (len_nonneg l). lia. Qed.

(* ===================================================================== *)
(** ** Big-endian numbers *)
(* ===================================================================== *)

Lemma length_be_bytes n z : length (be_bytes n z) = n.
Proof.
  revert z. induction n as [|n IH]; intros z; simpl; [done|].
  rewrite length_app, IH. simpl. lia.
Qed.

Lemma length_packNum z : length (packNum z) = 32%nat.
Proof. apply length_be_bytes. Qed.

Lemma Z_of_byte_of_Z z : Z_of_byte (byte_of_Z z) = z mod 256.
Proof.
  unfold Z_of_byte, byte_of_Z.
  pose proof (Z.mod_pos_bound z 256 ltac:(lia)) as Hb.
  destruct (Byte.of_N (Z.to_N (z mod 256))) as [b|] eqn:Hof.
  - simpl. apply Byte.to_of_N in Hof. rewrite Hof. lia.
  - apply Byte.of_N_None_iff in Hof. lia.
Qed.

Lemma be_value_app bs b : be_value (bs ++ [b]) = be_value bs * 256 + Z_of_byte b.
Proof. unfold be_value. by rewrite fold_left_app. Qed.

Lemma be_value_be_bytes n z : be_value (be_bytes n z) = z mod 256 ^ Z.of_nat n.
Proof.
  revert z. induction n as [|n IH]; intros z.
  - simpl. by rewrite Z.mod_1_r.
  - cbn [be_bytes]. rewrite be_value_app, IH, Z_of_byte_of_Z.
    rewrite Nat2Z.inj_succ, Z.pow_succ_r by lia.
    assert (0 < 256 ^ Z.of_nat n) by (apply Z.pow_pos_nonneg; lia).
    rewrite Z.rem_mul_r by lia. lia.
Qed.

(* ===================================================================== *)
(** ** The argument list *)
(* ===================================================================== *)


(* ===================================================================== *)
(** ** The argument list *)
(* ===================================================================== *)

Lemma NonIndexed_acc (arguments : Arguments) (ret : list Argument) :
  fold_left (fun ret arg => if Indexed arg then ret else ret ++ [arg])
            arguments ret
  = ret ++ filter (fun arg => Indexed arg = false) arguments.
Proof.
  revert ret. induction arguments as [|arg rest IH]; intros ret; cbn [fold_left].
  - by rewrite app_nil_r.
  - rewrite IH. destruct (Indexed arg) eqn:Hi.
    + rewrite filter_cons_False; [done | simpl; congruence].
    + rewrite filter_cons_True by done. by rewrite <- app_assoc.
Qed.

Lemma NonIndexed_filter (arguments : Arguments) :
  NonIndexed arguments = filter (fun arg => Indexed arg = false) arguments.
Proof. unfold NonIndexed. by rewrite NonIndexed_acc. Qed.

Lemma NonIndexed_all (arguments : Arguments) :
  Forall (fun arg => Indexed arg = false) arguments →
  NonIndexed arguments = arguments.
Proof.
  intros Hall. rewrite NonIndexed_filter.
  induction Hall as [|arg rest Harg _ IH]; [done|].
  rewrite filter_cons_True by done. by rewrite IH.
Qed.

Lemma isTuple_length (arguments : Arguments) :
  isTuple arguments = true ↔ (1 < length arguments)%nat.
Proof.
  unfold isTuple, len. rewrite bool_decide_eq_true. lia.
Qed.

Lemma isArrayTy_true t : isArrayTy t = true ↔ T t = ArrayTy.
Proof. unfold isArrayTy. apply bool_decide_eq_true. Qed.

(* ===================================================================== *)
(** ** Pack *)
(* ===================================================================== *)

Lemma inputOffset_acc (abiArgs : Arguments) (off off' : Z) :
  same_int off off' →
  same_int
    (fold_left (fun off abiArg =>
                  if isArrayTy (Type_ abiArg)
                  then int_add off (int_mul 32 (Size (Type_ abiArg)))
                  else int_add off 32)
               abiArgs off)
    (off' + headSize abiArgs).
Proof.
  revert off off'. induction abiArgs as [|a rest IH]; intros off off' Hoff.
  - simpl. by rewrite Z.add_0_r.
  - cbn [fold_left headSize foldr]. fold (headSize rest).
    rewrite Z.add_assoc. apply IH.
    destruct (isArrayTy (Type_ a)).
    + apply same_int_add; [done|]. apply same_int_mul; apply same_int_refl.
    + apply same_int_add; [done|]. apply same_int_refl.
Qed.

Section PackProperties.
Context `{codec : TypeCodec}.

(** The input offset of [Pack] is [headSize] as a machine integer. *)
Lemma inputOffset_headSize (abiArgs : Arguments) :
  inputOffset abiArgs = wrap_int (headSize abiArgs).
Proof.
  unfold inputOffset.
  pose proof (inputOffset_acc abiArgs 0 0 (same_int_refl 0)) as H.
  rewrite Z.add_0_l in H.
  apply same_int_exact; [| apply wrap_int_in_int |].
  - destruct abiArgs as [|a rest] using rev_ind.
    + done.
    + rewrite fold_left_app. simpl.
      destruct (isArrayTy (Type_ a)); apply int_add_in_int.
  - unfold same_int in *. by rewrite wrap_int_mod.
Qed.

Lemma Pack_loop_layout (pre rest : Arguments) (args : list value)
    (packed : list (list byte)) (off : Z) (ret variableInput : list byte) :
  Forall3 (fun abiArg a p => pack (Type_ abiArg) a = Ok p) rest args packed →
  in_int off →
  in_int (off + len variableInput + len (layoutTail (layoutItems rest packed))) →
  Pack_loop (pre ++ rest) off (length pre) args ret variableInput
  = Ok (ret
        ++ layoutHead off (len variableInput) (layoutItems rest packed)
        ++ variableInput ++ layoutTail (layoutItems rest packed)).
Proof.
  intros Hall. revert pre ret variableInput.
  induction Hall as [|abiArg a p rest args packed Hp _ IH];
    intros pre ret variableInput Hoff Hfit.
  - simpl. by rewrite app_nil_r.
  - cbn [Pack_loop]. rewrite list_lookup_middle by done.
    rewrite Hp. cbn [mbind result_bind].
    unfold layoutItems in *. cbn [fmap list_fmap zip zip_with layoutTail layoutHead] in *.
    replace (pre ++ abiArg :: rest) with ((pre ++ [abiArg]) ++ rest)
      by (by rewrite <- app_assoc).
    replace (S (length pre)) with (length (pre ++ [abiArg]))
      by (rewrite length_app; simpl; lia).
    destruct (requiresLengthPrefix (Type_ abiArg)).
    + rewrite IH; [| done |].
      * unfold int_add. rewrite wrap_int_id.
        -- rewrite len_app. by rewrite <- !app_assoc.
        -- rewrite len_app in Hfit.
           pose proof (len_nonneg variableInput).
           pose proof (len_nonneg p).
           pose proof (len_nonneg (layoutTail (zip (Type_ <$> rest) packed))).
           unfold in_int in *. lia.
      * rewrite !len_app in *.
        replace (off + (len variableInput + len p)
                 + len (layoutTail (zip (Type_ <$> rest) packed)))
          with (off + len variableInput
                + (len p + len (layoutTail (zip (Type_ <$> rest) packed))))
          by lia.
        done.
    + rewrite IH; [| done |].
      * by rewrite <- !app_assoc.
      * done.
Qed.

End PackProperties.

(* ===================================================================== *)
(** ** UnpackValues *)
(* ===================================================================== *)

(** Induction along the chain of element types. *)
Lemma AbiType_elem_ind (P : AbiType → Prop) :
  (∀ k n, P (MkType k n None)) →
  (∀ k n e, P e → P (MkType k n (Some e))) →
  ∀ t, P t.
Proof.
  intros Hnil Hsome. fix IH 1.
  intros [k n [e|]]; [apply Hsome, IH | apply Hnil].
Qed.

Lemma getArraySize_loop_spec (e : AbiType) (size : Z) :
  has_elems e = true →
  ∃ r, getArraySize_loop size e = Ok r
       ∧ same_int r (size * flattenedSize e)
       ∧ (in_int size → in_int r)
       ∧ (isArrayTy e = false → r = size).
Proof.
  revert size. induction e as [k n|k n e IH] using AbiType_elem_ind;
    intros size Hwf.
  - destruct k; try discriminate Hwf;
      (exists size; simpl; rewrite Z.mul_1_r;
       split; [done | split; [apply same_int_refl | done]]).
  - destruct k;
      try (exists size; simpl; rewrite Z.mul_1_r;
           split; [done | split; [apply same_int_refl | done]]).
    simpl in Hwf. destruct (IH (int_mul size n) Hwf) as (r & Hr & Hsame & Hin & _).
    exists r. cbn [getArraySize_loop flattenedSize]. split; [done|]. split.
    + unfold same_int in *. rewrite Hsame.
      rewrite Z.mul_assoc.
      rewrite (Zmult_mod (int_mul size n)), (Zmult_mod (size * n)).
      unfold int_mul. by rewrite wrap_int_mod.
    + split; [| discriminate]. intros _. apply Hin, int_mul_in_int.
Qed.

(** On an array type whose every level has an element type,
    [getArraySize] yields the full flattened size, as a machine integer. *)
Lemma getArraySize_flattenedSize (t : AbiType) :
  isArrayTy t = true → has_elems t = true →
  ∃ r, getArraySize t = Ok r
       ∧ same_int r (flattenedSize t)
       ∧ (in_int (flattenedSize t) → r = flattenedSize t).
Proof.
  intros Harr Hwf. destruct t as [k n [e|]].
  - apply isArrayTy_true in Harr. simpl in Harr. subst k. simpl in Hwf.
    destruct (getArraySize_loop_spec e n Hwf) as (r & Hr & Hsame & Hin & Hleaf).
    exists r. unfold getArraySize. cbn [Elem Size flattenedSize].
    split; [done|]. split; [done|]. intros Hfit.
    destruct (isArrayTy e) eqn:He.
    + apply same_int_exact; [| done | done].
      destruct e as [k' n' [e'|]]; apply isArrayTy_true in He; simpl in He;
        subst k'; [| discriminate Hwf].
      cbn [getArraySize_loop] in Hr. simpl in Hwf.
      destruct (getArraySize_loop_spec e' (int_mul n n') Hwf)
        as (r' & Hr' & _ & Hin' & _).
      rewrite Hr' in Hr. injection Hr as <-. apply Hin', int_mul_in_int.
    + rewrite (Hleaf eq_refl).
      destruct e as [k' n' next]. unfold isArrayTy in He.
      apply bool_decide_eq_false in He. simpl in He.
      destruct k', next; cbn [flattenedSize]; try lia; done.
  - apply isArrayTy_true in Harr. simpl in Harr. subst k. discriminate Hwf.
Qed.

Section UnpackValuesProperties.
Context `{codec : TypeCodec}.

Lemma UnpackValues_loop_offsets (data : list byte) (index : nat)
    (nonIndexed : list Argument) (virtualArgs virtualArgs' : Z)
    (retval : list value) :
  same_int virtualArgs virtualArgs' →
  Forall (fun arg => isArrayTy (Type_ arg) = true →
                     has_elems (Type_ arg) = true) nonIndexed →
  Forall (fun slot => in_int slot.1)
         (decodeOffsets (Z.of_nat index) virtualArgs' nonIndexed) →
  UnpackValues_loop data index nonIndexed virtualArgs retval
  = vs ← decodeAt data (decodeOffsets (Z.of_nat index) virtualArgs' nonIndexed);
    Ok (retval ++ vs).
Proof.
  revert index virtualArgs virtualArgs' retval.
  induction nonIndexed as [|arg rest IH];
    intros index virtualArgs virtualArgs' retval Hva Hwf Hfit.
  - simpl. by rewrite app_nil_r.
  - cbn [UnpackValues_loop decodeOffsets decodeAt mapM] in *.
    apply Forall_cons in Hwf as [Harg Hwf].
    apply Forall_cons in Hfit as [Hoff Hfit]. cbn [fst snd] in *.
    assert (int_mul (int_add (Z.of_nat index) virtualArgs) 32
            = (Z.of_nat index + virtualArgs') * 32) as ->.
    { apply same_int_exact; [apply int_mul_in_int | done |].
      apply same_int_mul; [| apply same_int_refl].
      apply same_int_add; [apply same_int_refl | done]. }
    assert (∃ va, (if isArrayTy (Type_ arg)
                   then size ← getArraySize (Type_ arg);
                        Ok (int_add virtualArgs (int_sub size 1))
                   else Ok virtualArgs) = Ok va
                  ∧ same_int va
                      (if isArrayTy (Type_ arg)
                       then virtualArgs' + (flattenedSize (Type_ arg) - 1)
                       else virtualArgs')) as (va & -> & Hva').
    { destruct (isArrayTy (Type_ arg)) eqn:Harr.
      - destruct (getArraySize_flattenedSize (Type_ arg) Harr (Harg eq_refl))
          as (r & -> & Hsame & _).
        eexists. split; [reflexivity|].
        apply same_int_add; [done|].
        apply same_int_sub; [done | apply same_int_refl].
      - by exists virtualArgs. }
    cbn [mbind result_bind].
    destruct (toGoType ((Z.of_nat index + virtualArgs') * 32) (Type_ arg) data)
      as [v|e|p]; [| reflexivity | reflexivity].
    cbn [mbind result_bind].
    rewrite (IH (S index) va _ (retval ++ [v]) Hva' Hwf).
    + replace (Z.of_nat (S index)) with (Z.of_nat index + 1) by lia.
      unfold decodeAt.
      destruct (mapM _ _) as [vs|e|p]; [| reflexivity | reflexivity].
      cbn. by rewrite <- app_assoc.
    + replace (Z.of_nat (S index)) with (Z.of_nat index + 1) by lia. done.
Qed.

End UnpackValuesProperties.

(* ===================================================================== *)
(** ** Properties of the encoder *)
(* ===================================================================== *)

(** C6. For an argument list of length n and a value sequence of another
    length, [Pack] fails with the argument-count error and yields no
    bytes; the outcome does not depend on the codec, which is never
    consulted. *)
Theorem Pack_arity_mismatch `{codec : TypeCodec}
    (arguments : Arguments) (args : list value) :
  length args ≠ length arguments →
  Pack arguments args = Err (ErrArgumentCount (len args) (len arguments)).
Proof.
  intros Hne. unfold Pack.
  destruct (decide (len args ≠ len arguments)) as [_|Heq]; [done|].
  exfalso. apply Heq. unfold len. lia.
Qed.

Lemma Pack_arity_mismatch_witness :
  length [VInt 1] ≠ length Samples.mixedArgs
  ∧ Pack (codec := StdCodec.codec) Samples.mixedArgs [VInt 1]
    = Err (ErrArgumentCount 1 3).
Proof.
  split; [simpl; lia|].
  apply (Pack_arity_mismatch (codec := StdCodec.codec) Samples.mixedArgs [VInt 1]).
  simpl; lia.
Defined.

(** C2. When every value packs, [Pack] returns the head followed by the
    tail: headSize is 32 bytes per argument, 32 times the declared
    dimension size for an array-typed one; an argument whose type
    requires a length prefix puts the 32-byte offset
    headSize + current tail length in the head and its packed bytes in
    the tail; every other argument has its packed bytes inline in the
    head. The sizes are taken within the range of Go's [int], in which
    the code adds them up. *)
Theorem Pack_layout `{codec : TypeCodec}
    (arguments : Arguments) (args : list value) (packed : list (list byte)) :
  Forall3 (fun abiArg a p => pack (Type_ abiArg) a = Ok p) arguments args packed →
  in_int (headSize arguments) →
  in_int (headSize arguments + len (layoutTail (layoutItems arguments packed))) →
  Pack arguments args
  = Ok (layoutHead (headSize arguments) 0 (layoutItems arguments packed)
        ++ layoutTail (layoutItems arguments packed))
  ∧ ∀ offset, length (packNum offset) = 32%nat.
Proof.
  intros Hall Hhead Hfit. split; [| apply length_packNum].
  unfold Pack.
  destruct (decide (len args ≠ len arguments)) as [Hne|_].
  { exfalso. apply Hne. unfold len.
    apply Forall3_length_lm in Hall. lia. }
  rewrite inputOffset_headSize, wrap_int_id by done.
  pose proof (Pack_loop_layout [] arguments args packed
                (headSize arguments) [] [] Hall Hhead) as H.
  simpl in H. rewrite H; [done|].
  unfold len at 1. simpl. by rewrite Z.add_0_r.
Qed.

Lemma Pack_layout_witness :
  Forall3 (fun abiArg a p => pack (TypeCodec := StdCodec.codec) (Type_ abiArg) a = Ok p)
          Samples.mixedArgs Samples.mixedValues Samples.mixedPacked
  ∧ in_int (headSize Samples.mixedArgs)
  ∧ Pack (codec := StdCodec.codec) Samples.mixedArgs Samples.mixedValues
    = Ok (packNum 96 ++ packNum 77 ++ packNum 160
          ++ concat (Samples.mixedPacked !!! 0%nat :: [Samples.mixedPacked !!! 2%nat])).
Proof.
  assert (Forall3 (fun abiArg a p =>
                     pack (TypeCodec := StdCodec.codec) (Type_ abiArg) a = Ok p)
            Samples.mixedArgs Samples.mixedValues Samples.mixedPacked) as Hall.
  { repeat constructor. }
  assert (in_int (headSize Samples.mixedArgs)) as Hhead.
  { vm_compute. split; discriminate. }
  split; [exact Hall|]. split; [exact Hhead|].
  destruct (Pack_layout (codec := StdCodec.codec) Samples.mixedArgs
              Samples.mixedValues Samples.mixedPacked Hall Hhead) as [H _].
  { vm_compute. split; discriminate. }
  rewrite H. vm_compute. reflexivity.
Defined.

(* ===================================================================== *)
(** ** Properties of the decoder *)
(* ===================================================================== *)

(** C3. [UnpackValues] decodes the non-indexed argument at filtered
    position i at byte offset (i + virtualArgs) * 32, where virtualArgs
    starts at 0 and grows, after each array-typed argument, by the
    array's full flattened size minus 1; [getArraySize] is that full
    flattened size, the product of the declared dimension sizes of every
    nested array level down to the first non-array element type, 6 for a
    2x3 array of a scalar. Every array level has its element type, and
    the offsets and sizes are within the range of Go's [int]. *)
Theorem UnpackValues_offsets `{codec : TypeCodec}
    (arguments : Arguments) (data : list byte) :
  Forall (fun arg => isArrayTy (Type_ arg) = true →
                     has_elems (Type_ arg) = true
                     ∧ in_int (flattenedSize (Type_ arg)))
         (filter (fun arg => Indexed arg = false) arguments) →
  Forall (fun slot => in_int slot.1)
         (decodeOffsets 0 0 (filter (fun arg => Indexed arg = false) arguments)) →
  UnpackValues arguments data
  = decodeAt data
      (decodeOffsets 0 0 (filter (fun arg => Indexed arg = false) arguments))
  ∧ Forall (fun arg => isArrayTy (Type_ arg) = true →
                       getArraySize (Type_ arg) = Ok (flattenedSize (Type_ arg)))
           (filter (fun arg => Indexed arg = false) arguments)
  ∧ getArraySize (Samples.arrayOf 2 (Samples.arrayOf 3 Samples.uint256)) = Ok 6.
Proof.
  intros Hwf Hfit. split; [| split; [| reflexivity]].
  - unfold UnpackValues. rewrite NonIndexed_filter.
    rewrite (UnpackValues_loop_offsets data 0 _ 0 0 []);
      [| apply same_int_refl | | done].
    + destruct (decodeAt data _); reflexivity.
    + eapply Forall_impl; [exact Hwf|]. intros arg H Harr. by apply H.
  - eapply Forall_impl; [exact Hwf|]. intros arg H Harr.
    destruct (H Harr) as [Helems Hin].
    destruct (getArraySize_flattenedSize (Type_ arg) Harr Helems)
      as (r & -> & _ & Hexact).
    by rewrite (Hexact Hin).
Qed.

Lemma UnpackValues_offsets_witness :
  UnpackValues (codec := StdCodec.codec) Samples.gridThenUint
               (concat (packNum <$> [1; 2; 3; 4; 5; 6; 9]))
  = decodeAt (codec := StdCodec.codec)
      (concat (packNum <$> [1; 2; 3; 4; 5; 6; 9]))
      [(0, Samples.grid); (192, Samples.uint256)]
  ∧ getArraySize Samples.grid = Ok 6.
Proof.
  destruct (UnpackValues_offsets (codec := StdCodec.codec) Samples.gridThenUint
              (concat (packNum <$> [1; 2; 3; 4; 5; 6; 9]))) as (H & _ & H6).
  - repeat constructor; vm_compute; discriminate.
  - repeat constructor; vm_compute; discriminate.
  - split; [exact H | exact H6].
Defined.

(* ===================================================================== *)
(** ** PackPrefix *)
(* ===================================================================== *)

Lemma PackPrefix_concat (result_ : list PKr) (ret : list byte) :
  fold_left (fun ret (pkr : PKr) => ret ++ vec_to_list pkr) result_ ret
  = ret ++ concat (vec_to_list <$> result_).
Proof.
  revert ret. induction result_ as [|pkr rest IH]; intros ret; simpl.
  - by rewrite app_nil_r.
  - rewrite IH. by rewrite <- app_assoc.
Qed.

Lemma length_concat_pkrs (result_ : list PKr) :
  length (concat (vec_to_list <$> result_)) = (96 * length result_)%nat.
Proof.
  induction result_ as [|pkr rest IH]; [done|].
  cbn [fmap list_fmap concat length]. rewrite length_app, length_vec_to_list.
  fold (fmap (M := list) (@vec_to_list byte 96)). rewrite IH. lia.
Qed.

Section PackPrefixProperties.
Context `{codec : TypeCodec}.

Lemma PackPrefix_loop_ok (pre rest : Arguments) (args : list value)
    (pkrs : list (list PKr)) (result_ : list PKr) :
  Forall3 (fun abiArg a p => getAllAddress (Type_ abiArg) a = Ok p)
          rest args pkrs →
  PackPrefix_loop (pre ++ rest) (length pre) args result_
  = Ok (result_ ++ concat pkrs).
Proof.
  intros Hall. revert pre result_.
  induction Hall as [|abiArg a p rest args pkrs Hp _ IH]; intros pre result_.
  - simpl. by rewrite app_nil_r.
  - cbn [PackPrefix_loop]. rewrite list_lookup_middle by done.
    rewrite Hp. cbn [mbind result_bind].
    replace (pre ++ abiArg :: rest) with ((pre ++ [abiArg]) ++ rest)
      by (by rewrite <- app_assoc).
    replace (S (length pre)) with (length (pre ++ [abiArg]))
      by (rewrite length_app; simpl; lia).
    rewrite IH. simpl. by rewrite <- app_assoc.
Qed.

(** The first argument whose extraction does not give a list decides
    the outcome. *)
Lemma PackPrefix_loop_fails (pre rest : Arguments) (args : list value)
    (i : nat) (abiArg : Argument) (a : value) (result_ : list PKr) :
  length args = length rest →
  rest !! i = Some abiArg → args !! i = Some a →
  is_Ok (getAllAddress (Type_ abiArg) a) = false →
  is_Ok (PackPrefix_loop (pre ++ rest) (length pre) args result_) = false.
Proof.
  revert pre rest args result_.
  induction i as [|i IH]; intros pre rest args result_ Hlen Hrest Hargs Hfail.
  - destruct rest as [|b rest], args as [|a' args]; try discriminate.
    simpl in Hrest, Hargs. injection Hrest as ->. injection Hargs as ->.
    cbn [PackPrefix_loop]. rewrite list_lookup_middle by done.
    destruct (getAllAddress (Type_ abiArg) a); [discriminate | done | done].
  - destruct rest as [|b rest], args as [|a' args]; try discriminate.
    simpl in Hrest, Hargs, Hlen.
    cbn [PackPrefix_loop]. rewrite list_lookup_middle by done.
    destruct (getAllAddress (Type_ b) a'); [| done | done].
    cbn [mbind result_bind].
    replace (pre ++ b :: rest) with ((pre ++ [b]) ++ rest)
      by (by rewrite <- app_assoc).
    replace (S (length pre)) with (length (pre ++ [b]))
      by (rewrite length_app; simpl; lia).
    eapply IH; eauto.
Qed.

End PackPrefixProperties.

(** C5. [PackPrefix] returns the addresses extracted from each argument,
    argument after argument and in their order within each (an argument
    may give none), as 96-byte records behind their total count on 2
    bytes, big-endian (the two bytes read back as the count whenever it
    is below 65536); it fails, with no bytes, when the number of values
    is not the number of arguments and when an extraction fails. *)
Theorem PackPrefix_spec `{codec : TypeCodec}
    (arguments : Arguments) (args : list value) :
  (∀ pkrs : list (list PKr),
     Forall3 (fun abiArg a p => getAllAddress (Type_ abiArg) a = Ok p)
             arguments args pkrs →
     PackPrefix arguments args
     = Ok (PaddedBigBytes (len (concat pkrs)) 2
           ++ concat (vec_to_list <$> concat pkrs))
     ∧ length (PaddedBigBytes (len (concat pkrs)) 2) = 2%nat
     ∧ (len (concat pkrs) < 65536 →
        be_value (PaddedBigBytes (len (concat pkrs)) 2) = len (concat pkrs))
     ∧ length (concat (vec_to_list <$> concat pkrs))
       = (96 * length (concat pkrs))%nat)
  ∧ (length args ≠ length arguments →
     PackPrefix arguments args
     = Err (ErrArgumentCount (len args) (len arguments)))
  ∧ (∀ i abiArg a,
       length args = length arguments →
       arguments !! i = Some abiArg → args !! i = Some a →
       is_Ok (getAllAddress (Type_ abiArg) a) = false →
       is_Ok (PackPrefix arguments args) = false).
Proof.
  split; [| split].
  - intros pkrs Hall. split; [| split; [| split]].
    + unfold PackPrefix.
      destruct (decide (len args ≠ len arguments)) as [Hne|_].
      { exfalso. apply Hne. unfold len.
        apply Forall3_length_lm in Hall. lia. }
      pose proof (PackPrefix_loop_ok [] arguments args pkrs [] Hall) as H.
      simpl in H. rewrite H. cbn [mbind result_bind].
      by rewrite PackPrefix_concat.
    + apply length_be_bytes.
    + intros Hcount. unfold PaddedBigBytes. rewrite be_value_be_bytes.
      apply Z.mod_small. pose proof (len_nonneg (concat pkrs)).
      change (256 ^ Z.of_nat 2) with 65536. lia.
    + apply length_concat_pkrs.
  - intros Hne. unfold PackPrefix.
    destruct (decide (len args ≠ len arguments)) as [_|Heq]; [done|].
    exfalso. apply Heq. unfold len. lia.
  - intros i abiArg a Hlen Harg Ha Hfail. unfold PackPrefix.
    destruct (decide (len args ≠ len arguments)) as [_|_]; [done|].
    pose proof (PackPrefix_loop_fails [] arguments args i abiArg a []
                  Hlen Harg Ha Hfail) as H.
    simpl in H. destruct (PackPrefix_loop arguments 0 args []); done.
Qed.

Lemma PackPrefix_spec_witness :
  PackPrefix (codec := StdCodec.codec) Samples.addressArgs
             [Samples.someAddress; VInt 5]
  = Ok (Byte.x00 :: Byte.x01 :: vec_to_list Samples.somePKr)
  ∧ PackPrefix (codec := StdCodec.codec) Samples.addressArgs [VInt 5]
    = Err (ErrArgumentCount 1 2)
  ∧ is_Ok (PackPrefix (codec := StdCodec.codec) Samples.addressArgs
                      [VInt 5; VInt 5]) = false.
Proof.
  split; [| split].
  - destruct (PackPrefix_spec (codec := StdCodec.codec) Samples.addressArgs
                [Samples.someAddress; VInt 5]) as [H _].
    destruct (H [[Samples.somePKr]; []]) as [Heq _].
    + repeat constructor.
    + rewrite Heq. vm_compute. reflexivity.
  - destruct (PackPrefix_spec (codec := StdCodec.codec) Samples.addressArgs
                [VInt 5]) as (_ & H & _).
    apply H. simpl; lia.
  - destruct (PackPrefix_spec (codec := StdCodec.codec) Samples.addressArgs
                [VInt 5; VInt 5]) as (_ & _ & H).
    apply (H 0%nat (Samples.plain "to" Samples.addressTy) (VInt 5));
      reflexivity.
Defined.

(* ===================================================================== *)
(** ** Decoding into a destination *)
(* ===================================================================== *)

Section UnpackProperties.
Context `{codec : TypeCodec} `{refl : Reflection}.

Lemma UnpackValues_loop_length (data : list byte) (index : nat)
    (nonIndexed : list Argument) (virtualArgs : Z) (retval vs : list value) :
  UnpackValues_loop data index nonIndexed virtualArgs retval = Ok vs →
  length vs = (length retval + length nonIndexed)%nat.
Proof.
  revert index virtualArgs retval.
  induction nonIndexed as [|arg rest IH]; intros index virtualArgs retval H.
  - simpl in H. injection H as <-. simpl. lia.
  - cbn [UnpackValues_loop] in H.
    destruct (if isArrayTy (Type_ arg) then _ else _) as [va|e|p];
      [| discriminate H | discriminate H].
    cbn [mbind result_bind] in H.
    destruct (toGoType _ _ _) as [v|e|p]; [| discriminate H | discriminate H].
    cbn [mbind result_bind] in H. apply IH in H.
    rewrite H, length_app. simpl. lia.
Qed.

(** One decoded value per non-indexed argument. *)
Lemma UnpackValues_length (arguments : Arguments) (data : list byte)
    (vs : list value) :
  UnpackValues arguments data = Ok vs →
  length vs = length (NonIndexed arguments).
Proof. intros H. by apply UnpackValues_loop_length in H. Qed.

Lemma UnpackValues_no_arguments (arguments : Arguments) (data : list byte) :
  NonIndexed arguments = [] → UnpackValues arguments data = Ok [].
Proof. unfold UnpackValues. by intros ->. Qed.

End UnpackProperties.

(** C4. With a pointer destination and at least one decoded value,
    [Unpack] goes through [unpackTuple] exactly when the full argument
    list, indexed arguments included, has more than one element, and
    through [unpackAtomic] otherwise; a list of one indexed and one
    non-indexed argument decodes exactly one value and still goes through
    [unpackTuple]. *)
Theorem Unpack_dispatch `{codec : TypeCodec} `{refl : Reflection}
    (arguments : Arguments) (x : value) (data : list byte)
    (first : value) (others : list value) :
  UnpackValues arguments data = Ok (first :: others) →
  ((1 < length arguments)%nat →
   Unpack arguments (PtrTo x) data
   = through_ptr (unpackTuple arguments x (first :: others)))
  ∧ ((length arguments <= 1)%nat →
     Unpack arguments (PtrTo x) data
     = through_ptr (unpackAtomic arguments x first))
  ∧ (∀ a b, arguments = [a; b] → Indexed a = true → Indexed b = false →
       others = []
       ∧ Unpack arguments (PtrTo x) data
         = through_ptr (unpackTuple arguments x [first])).
Proof.
  intros Hvs.
  assert ((1 < length arguments)%nat →
          Unpack arguments (PtrTo x) data
          = through_ptr (unpackTuple arguments x (first :: others))) as Htuple.
  { intros Hlen. unfold Unpack. rewrite Hvs.
    apply isTuple_length in Hlen. rewrite Hlen.
    by destruct (unpackTuple arguments x (first :: others)). }
  split; [exact Htuple|]. split.
  - intros Hlen. unfold Unpack. rewrite Hvs.
    destruct (isTuple arguments) eqn:Ht.
    + apply isTuple_length in Ht. lia.
    + by destruct (unpackAtomic arguments x first).
  - intros a b -> Ha Hb.
    apply UnpackValues_length in Hvs as Hlen.
    rewrite NonIndexed_filter in Hlen.
    rewrite filter_cons_False in Hlen by (simpl; congruence).
    rewrite filter_cons_True in Hlen by done. simpl in Hlen.
    destruct others; [| discriminate Hlen].
    split; [done|]. apply Htuple. simpl. lia.
Qed.

Lemma Unpack_dispatch_witness :
  UnpackValues (codec := StdCodec.codec) Samples.eventArgs (packNum 7)
  = Ok [VInt 7]
  ∧ Unpack (codec := StdCodec.codec) (refl := StdCodec.refl)
           Samples.eventArgs (PtrTo (VInt 0)) (packNum 7)
    = (PtrTo (VInt 0), Err ErrTupleDestination)
  ∧ unpackAtomic (refl := StdCodec.refl) Samples.eventArgs (VInt 0) (VInt 7)
    = (VInt 7, Ok ()).
Proof.
  assert (UnpackValues (codec := StdCodec.codec) Samples.eventArgs (packNum 7)
          = Ok [VInt 7]) as Hvs by (vm_compute; reflexivity).
  split; [exact Hvs|]. split; [| reflexivity].
  destruct (Unpack_dispatch (codec := StdCodec.codec) (refl := StdCodec.refl)
              Samples.eventArgs (VInt 0) (packNum 7) (VInt 7) [] Hvs)
    as (_ & _ & H).
  destruct (H (Samples.indexed "from" Samples.uint256)
              (Samples.plain "amount" Samples.uint256)) as [_ ->];
    reflexivity.
Defined.

(** C7. [Unpack] fails when the destination is not a pointer, and fails
    when no value was decoded; the destination is left as it was in both
    cases. *)
Theorem Unpack_failures `{codec : TypeCodec} `{refl : Reflection}
    (arguments : Arguments) (x : value) (data : list byte) :
  Unpack arguments (NonPtr x) data = (NonPtr x, Err ErrNonPointer)
  ∧ (UnpackValues arguments data = Ok [] →
     Unpack arguments (PtrTo x) data = (PtrTo x, Err ErrNoValues)).
Proof.
  split; [reflexivity|]. intros Hvs. unfold Unpack. by rewrite Hvs.
Qed.

Lemma Unpack_failures_witness :
  Unpack (codec := StdCodec.codec) (refl := StdCodec.refl)
         Samples.eventArgs (NonPtr (VInt 0)) (packNum 7)
  = (NonPtr (VInt 0), Err ErrNonPointer)
  ∧ Unpack (codec := StdCodec.codec) (refl := StdCodec.refl)
           [Samples.indexed "from" Samples.uint256] (PtrTo (VInt 0)) (packNum 7)
    = (PtrTo (VInt 0), Err ErrNoValues).
Proof.
  split.
  - apply (Unpack_failures (codec := StdCodec.codec) (refl := StdCodec.refl)
             Samples.eventArgs (VInt 0) (packNum 7)).
  - apply (Unpack_failures (codec := StdCodec.codec) (refl := StdCodec.refl)
             [Samples.indexed "from" Samples.uint256] (VInt 0) (packNum 7)).
    reflexivity.
Defined.

(** C8, as the specification words it, fails: a destination struct of
    two fields is not a single-field aggregate, yet the decoded value
    goes to its first field and not to the destination as a whole. *)
Lemma unpackAtomic_two_fields :
  kind_of Samples.pairStruct = KStruct
  ∧ unpackAtomic (refl := StdCodec.refl) [Samples.plain "amount" Samples.uint256]
                 Samples.pairStruct (VInt 7)
    = (VStruct [("amount", VInt 7); ("fee", VInt 0)], Ok ())
  ∧ unpackAtomic (refl := StdCodec.refl) [Samples.plain "amount" Samples.uint256]
                 Samples.pairStruct (VInt 7)
    ≠ assign Samples.pairStruct id (StdCodec.set Samples.pairStruct (VInt 7)).
Proof. split; [reflexivity|]. split; [reflexivity|]. discriminate. Qed.

(** The case the amended C8 leaves open: a struct destination without
    any field, given a value that is not a struct, is not assigned at
    all; [dst.Field(0)] panics on the missing field, whatever [set] is. *)
Lemma unpackAtomic_empty_struct `{refl : Reflection}
    (arguments : Arguments) (src : value) :
  kind_of src ≠ KStruct →
  unpackAtomic arguments (VStruct []) src = (VStruct [], Panic IndexOutOfRange).
Proof.
  intros Hsrc. unfold unpackAtomic.
  by destruct (decide (kind_of src ≠ KStruct)).
Qed.

(** C8, amended. When the destination is a struct with at least one
    field, however many it has, and the decoded value is not a struct,
    [unpackAtomic] assigns the value into the first field of the
    destination and leaves the other fields alone. When the destination
    is not a struct, and whenever the decoded value is itself a struct,
    it assigns the value into the destination itself. (A struct
    destination without any field, given a value that is not a struct,
    is the one case left open.) The argument list plays no part. *)
Theorem unpackAtomic_spec `{refl : Reflection}
    (arguments : Arguments) (dst src : value) :
  (∀ f field0 rest,
     dst = VStruct ((f, field0) :: rest) → kind_of src ≠ KStruct →
     unpackAtomic arguments dst src
     = assign dst (fun y => VStruct ((f, y) :: rest)) (set field0 src))
  ∧ (kind_of dst ≠ KStruct ∨ kind_of src = KStruct →
     unpackAtomic arguments dst src = assign dst id (set dst src)).
Proof.
  split.
  - intros f field0 rest -> Hsrc. unfold unpackAtomic.
    by destruct (decide (kind_of src ≠ KStruct)).
  - intros [Hdst|Hsrc]; unfold unpackAtomic.
    + by destruct dst.
    + destruct dst; try done.
      by destruct (decide (kind_of src ≠ KStruct)).
Qed.

Lemma unpackAtomic_spec_witness :
  unpackAtomic (refl := StdCodec.refl) [Samples.plain "amount" Samples.uint256]
               (VStruct [("amount", VInt 0)]) (VInt 7)
  = (VStruct [("amount", VInt 7)], Ok ())
  ∧ unpackAtomic (refl := StdCodec.refl) [Samples.plain "amount" Samples.uint256]
                 (VInt 0) (VInt 7)
    = (VInt 7, Ok ()).
Proof.
  split.
  - destruct (unpackAtomic_spec (refl := StdCodec.refl)
                [Samples.plain "amount" Samples.uint256]
                (VStruct [("amount", VInt 0)]) (VInt 7)) as [H _].
    rewrite (H "amount" (VInt 0) []); [reflexivity | reflexivity | discriminate].
  - destruct (unpackAtomic_spec (refl := StdCodec.refl)
                [Samples.plain "amount" Samples.uint256]
                (VInt 0) (VInt 7)) as [_ H].
    rewrite H; [reflexivity | left; discriminate].
Defined.

(* --------------------------------------------------------------------- *)
(** *** Into a map *)

Lemma lookup_assignAll (bindings : list (string * value))
    (m : gmap string value) (k : string) :
  assignAll bindings m !! k
  = from_option Some (m !! k) (lastBinding k bindings).
Proof.
  revert m. induction bindings as [|[n x] rest IH]; intros m; [done|].
  unfold assignAll in *. cbn [fold_left lastBinding fst snd]. rewrite IH.
  destruct (lastBinding k rest) as [y|]; [done|]. simpl.
  destruct (decide (n = k)) as [->|Hne]; simpl.
  - by rewrite lookup_insert_eq.
  - by rewrite lookup_insert_ne.
Qed.

Section UnpackIntoMapProperties.
Context `{codec : TypeCodec}.

Lemma unpackIntoMap_loop_ok (pre vs : list value) (nonIndexed : list Argument)
    (m : gmap string value) :
  length vs = length nonIndexed →
  unpackIntoMap_loop (length pre) nonIndexed (pre ++ vs) m
  = (assignAll (zip (Name <$> nonIndexed) vs) m, Ok ()).
Proof.
  revert pre vs m. induction nonIndexed as [|arg rest IH]; intros pre vs m Hlen.
  - by destruct vs.
  - destruct vs as [|v vs]; [discriminate Hlen|].
    cbn [unpackIntoMap_loop]. rewrite list_lookup_middle by done.
    replace (pre ++ v :: vs) with ((pre ++ [v]) ++ vs)
      by (by rewrite <- app_assoc).
    replace (S (length pre)) with (length (pre ++ [v]))
      by (rewrite length_app; simpl; lia).
    rewrite IH by (simpl in Hlen; lia). reflexivity.
Qed.

End UnpackIntoMapProperties.

(** C9, as the specification words it, fails: with a nil map and bytes
    that do not decode, [UnpackIntoMap] reports the decoding failure and
    not the destination error. *)
Lemma UnpackIntoMap_nil_map_short_data :
  UnpackIntoMap (codec := StdCodec.codec)
                [Samples.plain "amount" Samples.uint256] None []
  = (None, Err (ErrCollaborator "length insufficient"))
  ∧ (UnpackIntoMap (codec := StdCodec.codec)
                   [Samples.plain "amount" Samples.uint256] None []).2
    ≠ Err ErrNilMap.
Proof. split; [reflexivity | discriminate]. Qed.

(** C9, amended. [UnpackIntoMap] decodes first: when the bytes do not
    decode it fails with the decoding failure, whatever the map, and
    mutates nothing. When they decode, a nil destination map makes it
    fail with the destination error, nothing mutated; a usable map gets
    each non-indexed argument's decoded value under the argument's name,
    in list order, a later duplicate name overwriting an earlier one. *)
Theorem UnpackIntoMap_spec `{codec : TypeCodec}
    (arguments : Arguments) (data : list byte) :
  (∀ v e, UnpackValues arguments data = Err e →
          UnpackIntoMap arguments v data = (v, Err e))
  ∧ (∀ v p, UnpackValues arguments data = Panic p →
            UnpackIntoMap arguments v data = (v, Panic p))
  ∧ (∀ vs, UnpackValues arguments data = Ok vs →
           UnpackIntoMap arguments None data = (None, Err ErrNilMap))
  ∧ (∀ vs m, UnpackValues arguments data = Ok vs →
       UnpackIntoMap arguments (Some m) data
       = (Some (assignAll (zip (Name <$> NonIndexed arguments) vs) m), Ok ())
       ∧ ∀ k, assignAll (zip (Name <$> NonIndexed arguments) vs) m !! k
              = from_option Some (m !! k)
                  (lastBinding k (zip (Name <$> NonIndexed arguments) vs))).
Proof.
  split; [| split; [| split]].
  - intros v e Hvs. unfold UnpackIntoMap. by rewrite Hvs.
  - intros v p Hvs. unfold UnpackIntoMap. by rewrite Hvs.
  - intros vs Hvs. unfold UnpackIntoMap. by rewrite Hvs.
  - intros vs m Hvs. split; [| intros k; apply lookup_assignAll].
    unfold UnpackIntoMap, unpackIntoMap. rewrite Hvs.
    apply UnpackValues_length in Hvs.
    pose proof (unpackIntoMap_loop_ok [] vs (NonIndexed arguments) m Hvs) as H.
    simpl in H. by rewrite H.
Qed.

Lemma UnpackIntoMap_spec_witness :
  UnpackIntoMap (codec := StdCodec.codec)
                [Samples.plain "amount" Samples.uint256] None (packNum 7)
  = (None, Err ErrNilMap)
  ∧ UnpackIntoMap (codec := StdCodec.codec)
      [Samples.plain "x" Samples.uint256; Samples.indexed "y" Samples.uint256;
       Samples.plain "x" Samples.uint256]
      (Some ∅) (packNum 1 ++ packNum 2)
    = (Some (<["x" := VInt 2]> (<["x" := VInt 1]> ∅)), Ok ()).
Proof.
  split.
  - destruct (UnpackIntoMap_spec (codec := StdCodec.codec)
                [Samples.plain "amount" Samples.uint256] (packNum 7))
      as (_ & _ & H & _).
    apply (H [VInt 7]). vm_compute. reflexivity.
  - destruct (UnpackIntoMap_spec (codec := StdCodec.codec)
                [Samples.plain "x" Samples.uint256;
                 Samples.indexed "y" Samples.uint256;
                 Samples.plain "x" Samples.uint256]
                (packNum 1 ++ packNum 2)) as (_ & _ & _ & H).
    destruct (H [VInt 1; VInt 2] ∅) as [-> _]; [vm_compute; reflexivity|].
    reflexivity.
Defined.


(* --------------------------------------------------------------------- *)
(** *** Into a struct *)

Lemma FieldByName_lookup (fields : list (string * value)) (name : string)
    (j : nat) (x : value) :
  FieldByName fields name = Some (j, x) → fields !! j = Some (name, x).
Proof.
  revert j. induction fields as [|[f y] rest IH]; intros j H; [done|].
  cbn [FieldByName] in H. destruct (decide (f = name)) as [->|Hne].
  - by injection H as <- <-.
  - destruct (FieldByName rest name) as [[j' y']|]; [| done].
    simpl in H. injection H as <- <-. simpl. by apply IH.
Qed.

Lemma store_field_names (fields : list (string * value)) (j : nat) (x : value) :
  (store_field fields j x).*1 = fields.*1.
Proof.
  unfold store_field. destruct (fields !! j) as [[f y]|] eqn:Hj; [| done].
  rewrite list_fmap_insert. simpl.
  apply list_insert_id. by rewrite list_lookup_fmap, Hj.
Qed.

Lemma store_field_other (fields : list (string * value)) (j i : nat) (x : value) :
  i ≠ j → store_field fields j x !! i = fields !! i.
Proof.
  intros Hne. unfold store_field.
  destruct (fields !! j) as [[f y]|]; [| done].
  by apply list_lookup_insert_ne.
Qed.

Section UnpackTupleProperties.
Context `{refl : Reflection}.

(** The loop writes only to fields some remaining argument resolves to. *)
Lemma unpackTuple_struct_loop_frame (abi2struct : gmap string string)
    (i : nat) (nonIndexedArgs : list Argument) (marshalledValues : list value)
    (fields fields' : list (string * value)) (r : result unit) :
  unpackTuple_struct_loop abi2struct i nonIndexedArgs marshalledValues fields
  = (fields', r) →
  fields'.*1 = fields.*1
  ∧ ∀ j f x,
      fields !! j = Some (f, x) →
      Forall (fun arg => default EmptyString (abi2struct !! Name arg) ≠ f)
             nonIndexedArgs →
      fields' !! j = Some (f, x).
Proof.
  revert i fields. induction nonIndexedArgs as [|arg rest IH]; intros i fields H.
  - simpl in H. injection H as <- <-. done.
  - cbn [unpackTuple_struct_loop] in H.
    destruct (FieldByName fields _) as [[j0 field]|] eqn:Hfield;
      [| injection H as <- <-; done].
    destruct (marshalledValues !! i) as [v|]; [| injection H as <- <-; done].
    destruct (set field v) as [field'|e|p];
      [| injection H as <- <-; done | injection H as <- <-; done].
    apply IH in H as [Hnames Hframe]. split.
    + by rewrite Hnames, store_field_names.
    + intros j f x Hj Hnot. apply Forall_cons in Hnot as [Hne Hnot].
      apply Hframe; [| done]. rewrite store_field_other; [done|].
      intros ->. apply FieldByName_lookup in Hfield.
      rewrite Hfield in Hj. injection Hj as Hf _. done.
Qed.

End UnpackTupleProperties.

(** C10. When [unpackTuple] succeeds on a struct destination, the fields
    were resolved by the field-resolution collaborator, the destination
    keeps its fields in place, and every field that no non-indexed
    argument's name resolves to holds the value it held before. *)
Theorem unpackTuple_struct_frame `{refl : Reflection}
    (arguments : Arguments) (fields : list (string * value))
    (marshalledValues : list value) (dst' : value) :
  unpackTuple arguments (VStruct fields) marshalledValues = (dst', Ok ()) →
  ∃ abi2struct fields',
    mapArgNamesToStructFields (Name <$> NonIndexed arguments) (VStruct fields)
    = Ok abi2struct
    ∧ dst' = VStruct fields'
    ∧ fields'.*1 = fields.*1
    ∧ ∀ j f x,
        fields !! j = Some (f, x) →
        Forall (fun arg => default EmptyString (abi2struct !! Name arg) ≠ f)
               (NonIndexed arguments) →
        fields' !! j = Some (f, x).
Proof.
  intros H. unfold unpackTuple in H.
  destruct (mapArgNamesToStructFields _ _) as [abi2struct|e|p] eqn:Hmap;
    [| discriminate H | discriminate H].
  destruct (unpackTuple_struct_loop _ _ _ _ _) as [fields' r] eqn:Hloop.
  injection H as <- ->.
  exists abi2struct, fields'. split; [done|]. split; [done|].
  by apply unpackTuple_struct_loop_frame in Hloop.
Qed.

Lemma unpackTuple_struct_frame_witness :
  unpackTuple (refl := StdCodec.refl) Samples.eventArgs Samples.pairStruct [VInt 7]
  = (VStruct [("amount", VInt 7); ("fee", VInt 0)], Ok ())
  ∧ ∃ fields', fields' !! 1%nat = Some ("fee", VInt 0)
               ∧ VStruct [("amount", VInt 7); ("fee", VInt 0)] = VStruct fields'.
Proof.
  assert (unpackTuple (refl := StdCodec.refl) Samples.eventArgs
                      Samples.pairStruct [VInt 7]
          = (VStruct [("amount", VInt 7); ("fee", VInt 0)], Ok ())) as Hrun
    by (vm_compute; reflexivity).
  split; [exact Hrun|].
  destruct (unpackTuple_struct_frame (refl := StdCodec.refl) Samples.eventArgs
              [("amount", VInt 0); ("fee", VInt 0)] [VInt 7] _ Hrun)
    as (abi2struct & fields' & Hmap & Hdst & _ & Hframe).
  exists fields'. split; [| exact Hdst].
  apply Hframe; [reflexivity|].
  vm_compute in Hmap. injection Hmap as <-.
  repeat constructor. vm_compute. discriminate.
Defined.

(* ===================================================================== *)
(** ** The round trip *)
(* ===================================================================== *)

Lemma flattenedSize_not_array (t : AbiType) :
  isArrayTy t = false → flattenedSize t = 1.
Proof.
  unfold isArrayTy. intros H. apply bool_decide_eq_false in H.
  destruct t as [k n next]. simpl in H. by destruct k, next.
Qed.

Lemma flatArray_sizes (t : AbiType) :
  flatArray t = true → isArrayTy t = true →
  has_elems t = true ∧ flattenedSize t = Size t.
Proof.
  destruct t as [k n [e|]]; intros Hflat Harr;
    apply isArrayTy_true in Harr; simpl in Harr; subst k; [| discriminate].
  simpl in Hflat. apply negb_true_iff in Hflat.
  destruct e as [k' n' next']. unfold isArrayTy in Hflat.
  apply bool_decide_eq_false in Hflat. simpl in Hflat.
  destruct k'; try (simpl; split; [done | lia]). done.
Qed.

Section RoundTrip.
Context `{codec : TypeCodec}.

(** What the round trip asks of the codec. [static] types are laid out
    inline on [flattenedSize] slots and decode from where they are laid out;
    [dynamic] types are no arrays and decode through the offset found in
    their head slot. *)
Variables static dynamic : AbiType → Prop.

Hypothesis static_inline : ∀ t, static t → requiresLengthPrefix t = false.
Hypothesis static_length : ∀ t v p,
  static t → pack t v = Ok p → len p = 32 * flattenedSize t.
Hypothesis static_decode : ∀ t v p before after,
  static t → pack t v = Ok p →
  toGoType (len before) t (before ++ p ++ after) = Ok v.
Hypothesis dynamic_prefixed : ∀ t, dynamic t →
  requiresLengthPrefix t = true ∧ isArrayTy t = false.
Hypothesis dynamic_decode : ∀ t v p before between after,
  dynamic t → pack t v = Ok p →
  len (before ++ packNum (len before + 32 + len between) ++ between ++ p ++ after)
    <= int_max →
  toGoType (len before) t
    (before ++ packNum (len before + 32 + len between) ++ between ++ p ++ after)
  = Ok v.

Lemma layoutHead_length (abiArgs : Arguments) (args : list value)
    (packed : list (list byte)) (hs tl : Z) :
  Forall (covered static dynamic) abiArgs →
  Forall3 (fun abiArg a p => pack (Type_ abiArg) a = Ok p) abiArgs args packed →
  len (layoutHead hs tl (layoutItems abiArgs packed)) = headSize abiArgs.
Proof.
  intros Hcov Hall. revert tl Hcov.
  induction Hall as [|abiArg a p rest args packed Hp _ IH]; intros tl Hcov; [done|].
  apply Forall_cons in Hcov as [Harg Hcov].
  unfold layoutItems in *. cbn [fmap list_fmap zip zip_with layoutHead headSize foldr].
  fold (headSize rest).
  destruct Harg as [[Hst Hflat]|Hdyn].
  - rewrite (static_inline _ Hst), len_app, IH by done.
    rewrite (static_length _ _ _ Hst Hp).
    destruct (isArrayTy (Type_ abiArg)) eqn:Harr.
    + destruct (flatArray_sizes _ Hflat Harr) as [_ ->]. done.
    + by rewrite (flattenedSize_not_array _ Harr).
  - destruct (dynamic_prefixed _ Hdyn) as [-> ->].
    rewrite len_app, IH by done. unfold len at 1. by rewrite length_packNum.
Qed.

(** Decoding the rest of the arguments out of the packed bytes:
    [headBefore] and [tailBefore] are what the arguments already decoded
    left in the head and in the tail. *)
Lemma decodeAt_layout (rest : Arguments) (args : list value)
    (packed : list (list byte)) (hs i virtualArgs : Z)
    (headBefore tailBefore : list byte) :
  Forall (covered static dynamic) rest →
  Forall3 (fun abiArg a p => pack (Type_ abiArg) a = Ok p) rest args packed →
  (i + virtualArgs) * 32 = len headBefore →
  hs = len headBefore + headSize rest →
  len (headBefore ++ layoutHead hs (len tailBefore) (layoutItems rest packed)
       ++ tailBefore ++ layoutTail (layoutItems rest packed)) <= int_max →
  decodeAt (headBefore ++ layoutHead hs (len tailBefore) (layoutItems rest packed)
            ++ tailBefore ++ layoutTail (layoutItems rest packed))
           (decodeOffsets i virtualArgs rest)
  = Ok args
  ∧ Forall (fun slot => in_int slot.1) (decodeOffsets i virtualArgs rest).
Proof.
  intros Hcov Hall. revert i virtualArgs headBefore tailBefore Hcov.
  induction Hall as [|abiArg a p rest args packed Hp Hall IH];
    intros i virtualArgs headBefore tailBefore Hcov Hpos Hhs Hfit; [done|].
  apply Forall_cons in Hcov as [Harg Hcov].
  unfold layoutItems in *.
  cbn [fmap list_fmap zip zip_with layoutHead layoutTail headSize foldr
       decodeOffsets decodeAt mapM fst snd] in *.
  fold (headSize rest) in *. rewrite Hpos.
  assert (in_int (len headBefore)) as Hin.
  { apply len_in_int. rewrite len_app in Hfit.
    pose proof (len_nonneg (layoutHead hs (len tailBefore)
      (zip (Type_ <$> rest) packed))). 
    match type of Hfit with _ + len ?l <= _ => pose proof (len_nonneg l) end.
    lia. }
  destruct Harg as [[Hst Hflat]|Hdyn].
  - rewrite (static_inline _ Hst) in *. rewrite app_nil_l in *.
    rewrite <- !app_assoc in *.
    rewrite (static_decode _ _ _ _ _ Hst Hp). cbn [mbind result_bind].
    pose proof (static_length _ _ _ Hst Hp) as Hlen.
    destruct (IH (i + 1)
                 (if isArrayTy (Type_ abiArg)
                  then virtualArgs + (flattenedSize (Type_ abiArg) - 1)
                  else virtualArgs)
                 (headBefore ++ p) tailBefore Hcov) as [Hdec Hins].
    + rewrite len_app, Hlen.
      destruct (isArrayTy (Type_ abiArg)) eqn:Harr; [lia|].
      rewrite (flattenedSize_not_array _ Harr). lia.
    + rewrite len_app, Hlen.
      destruct (isArrayTy (Type_ abiArg)) eqn:Harr.
      * destruct (flatArray_sizes _ Hflat Harr) as [_ ->]. lia.
      * rewrite (flattenedSize_not_array _ Harr). lia.
    + by rewrite <- !app_assoc.
    + rewrite <- !app_assoc in Hdec. unfold decodeAt in Hdec. rewrite Hdec.
      split; [done|]. by constructor.
  - destruct (dynamic_prefixed _ Hdyn) as [Hpre Harr].
    rewrite Hpre, Harr in *.
    set (restHead := layoutHead hs (len tailBefore + len p)
                       (zip (Type_ <$> rest) packed)) in *.
    set (restTail := layoutTail (zip (Type_ <$> rest) packed)) in *.
    assert (hs + len tailBefore
            = len headBefore + 32 + len (restHead ++ tailBefore)) as Hoff.
    { rewrite len_app. unfold restHead.
      rewrite (layoutHead_length rest args packed hs _ Hcov Hall). lia. }
    assert (headBefore ++ (packNum (hs + len tailBefore) ++ restHead)
              ++ tailBefore ++ p ++ restTail
            = headBefore
              ++ packNum (len headBefore + 32 + len (restHead ++ tailBefore))
              ++ (restHead ++ tailBefore) ++ p ++ restTail) as Hdata.
    { rewrite Hoff. by rewrite <- !app_assoc. }
    assert (toGoType (len headBefore) (Type_ abiArg)
              (headBefore ++ (packNum (hs + len tailBefore) ++ restHead)
               ++ tailBefore ++ p ++ restTail) = Ok a) as ->.
    { rewrite Hdata. apply dynamic_decode; [done | done |].
      by rewrite <- Hdata. }
    cbn [mbind result_bind].
    destruct (IH (i + 1) virtualArgs
                 (headBefore ++ packNum (hs + len tailBefore))
                 (tailBefore ++ p) Hcov) as [Hdec Hins].
    + rewrite len_app. unfold len at 2. rewrite length_packNum. lia.
    + rewrite len_app. unfold len at 2. rewrite length_packNum. lia.
    + rewrite (len_app tailBefore p). fold restHead restTail.
      by rewrite <- !app_assoc in *.
    + rewrite (len_app tailBefore p) in Hdec. fold restHead restTail in Hdec.
      rewrite <- !app_assoc in *.
      unfold decodeAt in Hdec. rewrite Hdec.
      split; [done|]. by constructor.
Qed.

(** The round-trip law, for the argument lists [Pack] sizes the head
    of correctly: every argument non-indexed, of a static type that is
    no nested array, or of a dynamic type. *)
Theorem Pack_UnpackValues_roundtrip (arguments : Arguments)
    (args : list value) (packed : list (list byte)) :
  Forall (fun arg => Indexed arg = false) arguments →
  Forall (covered static dynamic) arguments →
  Forall3 (fun abiArg a p => pack (Type_ abiArg) a = Ok p) arguments args packed →
  headSize arguments + len (layoutTail (layoutItems arguments packed)) <= int_max →
  ∃ data, Pack arguments args = Ok data
          ∧ UnpackValues arguments data = Ok args.
Proof.
  intros Hplain Hcov Hall Hfit.
  pose proof (layoutHead_length arguments args packed (headSize arguments) 0
                Hcov Hall) as Hhead.
  pose proof (len_nonneg (layoutHead (headSize arguments) 0
                            (layoutItems arguments packed))) as Hpos.
  pose proof (len_nonneg (layoutTail (layoutItems arguments packed))) as Hpos'.
  assert (in_int (headSize arguments)) as Hin
    by (unfold in_int, int_min; lia).
  assert (in_int (headSize arguments
                  + len (layoutTail (layoutItems arguments packed)))) as Hin'
    by (unfold in_int, int_min; lia).
  exists (layoutHead (headSize arguments) 0 (layoutItems arguments packed)
          ++ layoutTail (layoutItems arguments packed)).
  split.
  - unfold Pack.
    destruct (decide (len args ≠ len arguments)) as [Hne|_].
    { exfalso. apply Hne. unfold len.
      apply Forall3_length_lm in Hall. lia. }
    rewrite inputOffset_headSize, wrap_int_id by done.
    pose proof (Pack_loop_layout [] arguments args packed
                  (headSize arguments) [] [] Hall Hin) as H.
    simpl in H. rewrite H; [done|].
    unfold len at 1. simpl. by rewrite Z.add_0_r.
  - destruct (decodeAt_layout arguments args packed (headSize arguments)
                0 0 [] [] Hcov Hall) as [Hdec Hins].
    + done.
    + unfold len. simpl. lia.
    + change (len (@nil byte)) with 0. rewrite !app_nil_l.
      rewrite len_app, Hhead. lia.
    + change (len (@nil byte)) with 0 in Hdec. rewrite !app_nil_l in Hdec.
      unfold UnpackValues. rewrite (NonIndexed_all _ Hplain).
      rewrite (UnpackValues_loop_offsets _ 0 _ 0 0 []);
        [| apply same_int_refl | | exact Hins].
      * change (Z.of_nat 0) with 0. by rewrite Hdec.
      * eapply Forall_impl; [exact Hcov|].
        intros arg [[_ Hflat]|Hdyn] Harr.
        -- by apply flatArray_sizes.
        -- destruct (dynamic_prefixed _ Hdyn) as [_ Hno]. congruence.
Qed.

End RoundTrip.

(* ===================================================================== *)
(** ** The codec instance meets what the round trip asks *)
(* ===================================================================== *)

Lemma mapM_result_cons {A B} (f : A → result B) (x : A) (xs : list A)
    (ys : list B) :
  mapM f (x :: xs) = Ok ys →
  ∃ y ys', f x = Ok y ∧ mapM f xs = Ok ys' ∧ ys = y :: ys'.
Proof.
  cbn [mapM]. destruct (f x) as [y|e|p]; [| done | done].
  cbn [mbind result_bind]. destruct (mapM f xs) as [ys'|e|p]; [| done | done].
  cbn. intros [= <-]. by exists y, ys'.
Qed.

Lemma mapM_result_length {A B} (f : A → result B) (xs : list A) (ys : list B) :
  mapM f xs = Ok ys → length ys = length xs.
Proof.
  revert ys. induction xs as [|x xs IH]; intros ys H.
  - by injection H as <-.
  - apply mapM_result_cons in H as (y & ys' & _ & Hxs & ->).
    simpl. by rewrite (IH ys').
Qed.

Lemma slice_middle (a b c : list byte) :
  StdCodec.slice (len a) (len a + len b) (a ++ b ++ c) = b.
Proof.
  unfold StdCodec.slice, len.
  replace (Z.of_nat (length a) + Z.of_nat (length b) - Z.of_nat (length a))
    with (Z.of_nat (length b)) by lia.
  rewrite !Nat2Z.id, drop_app_length, take_app_length. done.
Qed.

Lemma be_value_packNum (n : Z) : 0 <= n < 2 ^ 256 → be_value (packNum n) = n.
Proof.
  intros Hn. unfold packNum. rewrite be_value_be_bytes.
  change (256 ^ Z.of_nat 32) with (2 ^ 256). by apply Z.mod_small.
Qed.

Lemma len_packNum (n : Z) : len (packNum n) = 32.
Proof. unfold len. by rewrite length_packNum. Qed.

Lemma len_concat_uniform (ps : list (list byte)) (k : Z) :
  Forall (fun p => len p = k) ps → len (concat ps) = len ps * k.
Proof.
  induction 1 as [|p ps Hp _ IH]; [done|].
  cbn [concat]. rewrite len_app, IH, Hp. unfold len. simpl length. lia.
Qed.

Lemma StdCodec_static_inline (t : AbiType) :
  StdCodec.static t = true → StdCodec.requiresLengthPrefix t = false.
Proof. destruct t as [[] n [e|]]; done. Qed.

Lemma StdCodec_static_size (t : AbiType) :
  StdCodec.static t = true → 1 <= flattenedSize t.
Proof.
  induction t as [k n|k n e IH] using AbiType_elem_ind; intros H.
  - by destruct k.
  - destruct k; try done. cbn [StdCodec.static flattenedSize] in *.
    apply andb_true_iff in H as [Hn He]. apply bool_decide_eq_true in Hn.
    specialize (IH He). nia.
Qed.

Lemma StdCodec_static_length (t : AbiType) (v : value) (p : list byte) :
  StdCodec.static t = true → StdCodec.pack t v = Ok p →
  len p = 32 * flattenedSize t.
Proof.
  revert v p. induction t as [k n|k n e IH] using AbiType_elem_ind;
    intros v p Hst Hp.
  - destruct k; try done; cbn in Hp.
    + destruct v; try done. case_decide; [| done]. injection Hp as <-.
      apply len_packNum.
    + destruct v; try done. injection Hp as <-. apply len_packNum.
  - destruct k; try done; cbn [StdCodec.pack] in Hp.
    + destruct v; try done. case_decide; [| done]. injection Hp as <-.
      apply len_packNum.
    + destruct v; try done. injection Hp as <-. apply len_packNum.
    + cbn [StdCodec.static flattenedSize] in *.
      apply andb_true_iff in Hst as [_ He].
      destruct v as [| | | | |elems|]; try done.
      case_decide as Hlen; [| done].
      destruct (mapM (StdCodec.pack e) elems) as [packed|?|?] eqn:Hm; [| done | done].
      cbn in Hp. injection Hp as <-.
      rewrite (len_concat_uniform packed (32 * flattenedSize e)).
      * unfold len in *. rewrite (mapM_result_length _ _ _ Hm). lia.
      * clear Hlen. revert packed Hm. induction elems as [|x xs IHxs]; intros packed Hm.
        -- injection Hm as <-. constructor.
        -- apply mapM_result_cons in Hm as (y & ys & Hy & Hys & ->).
           constructor; [by eapply IH | by apply IHxs].
Qed.

Lemma slice_word (a b c : list byte) :
  len b = 32 → StdCodec.slice (len a) (len a + 32) (a ++ b ++ c) = b.
Proof. intros <-. apply slice_middle. Qed.

Lemma StdCodec_decode_elems (e : AbiType) (data before after : list byte) :
  (∀ v p before after,
     StdCodec.pack e v = Ok p →
     StdCodec.toGoType (len before) e (before ++ p ++ after) = Ok v) →
  (∀ v p, StdCodec.pack e v = Ok p → len p = 32 * flattenedSize e) →
  ∀ (elems : list value) (packed : list (list byte)) (decoded : list byte) (j0 : Z),
    mapM (StdCodec.pack e) elems = Ok packed →
    len decoded = j0 * (32 * flattenedSize e) →
    data = before ++ decoded ++ concat packed ++ after →
    mapM (fun j => StdCodec.toGoType (len before + j * (32 * flattenedSize e)) e data)
         (seqZ j0 (len elems))
    = Ok elems.
Proof.
  intros Hdecode Hlength elems.
  induction elems as [|x xs IH]; intros packed decoded j0 Hm Hlen Hdata; [done|].
  apply mapM_result_cons in Hm as (px & pxs & Hx & Hxs & ->).
  rewrite seqZ_cons by (unfold len; simpl length; lia).
  replace (Z.pred (len (x :: xs))) with (len xs)
    by (unfold len; simpl length; lia).
  cbn [mapM]. cbn [concat] in Hdata.
  assert (StdCodec.toGoType (len before + j0 * (32 * flattenedSize e)) e data
          = Ok x) as ->.
  { rewrite <- Hlen, <- len_app.
    replace data with ((before ++ decoded) ++ px ++ (concat pxs ++ after))
      by (rewrite Hdata; by rewrite <- !app_assoc).
    by apply Hdecode. }
  cbn [mbind result_bind].
  rewrite (IH pxs (decoded ++ px) (Z.succ j0) Hxs).
  - reflexivity.
  - rewrite len_app, Hlen, (Hlength x px Hx). lia.
  - rewrite Hdata. by rewrite <- !app_assoc.
Qed.

Lemma StdCodec_static_decode (t : AbiType) (v : value)
    (p before after : list byte) :
  StdCodec.static t = true → StdCodec.pack t v = Ok p →
  StdCodec.toGoType (len before) t (before ++ p ++ after) = Ok v.
Proof.
  revert v p before after.
  induction t as [k n|k n e IH] using AbiType_elem_ind;
    intros v p before after Hst Hp.
  all: pose proof (StdCodec_static_length _ _ _ Hst Hp) as Hlen.
  all: pose proof (StdCodec_static_size _ Hst) as Hsize.
  all: pose proof (len_nonneg before) as Hb; pose proof (len_nonneg after) as Ha.
  all: assert (¬ (len before < 0 ∨ len before + 32 > len (before ++ p ++ after)))
         as Hbound by (rewrite !len_app; lia).
  all: destruct k; try done; cbn [StdCodec.pack] in Hp.
  1, 3: destruct v as [| |m| | | |]; try done; case_decide as Hm; [| done];
        injection Hp as <-; cbn [StdCodec.toGoType];
        case_decide; [done|];
        rewrite slice_word by apply len_packNum;
        by rewrite be_value_packNum.
  1, 2: destruct v as [|b| | | | |]; try done; injection Hp as <-;
        cbn [StdCodec.toGoType]; case_decide; [done|];
        rewrite slice_word by apply len_packNum;
        rewrite be_value_packNum by (destruct b; lia);
        by destruct b.
  cbn [StdCodec.static] in Hst. apply andb_true_iff in Hst as [Hn He].
  apply bool_decide_eq_true in Hn.
  destruct v as [| | | | |elems|]; try done.
  case_decide as Hcount; [| done].
  destruct (mapM (StdCodec.pack e) elems) as [packed|?|?] eqn:Hm; [| done | done].
  cbn in Hp. injection Hp as <-.
  cbn [StdCodec.toGoType flattenedSize] in *. case_decide; [done|].
  case_decide as Hfit.
  { exfalso. rewrite !len_app in Hfit.
    pose proof (StdCodec_static_size _ He). nia. }
  rewrite <- Hcount.
  rewrite (StdCodec_decode_elems e _ before after) with (packed := packed)
    (decoded := []) (j0 := 0); try done.
  - intros v' p' before' after' Hp'. by apply IH.
  - intros v' p' Hp'. by apply (StdCodec_static_length e v' p').
Qed.

Lemma byte_of_value_back (elems : list value) (raw : list byte) :
  mapM StdCodec.byte_of_value elems = Ok raw →
  (fun b => VInt (Z_of_byte b)) <$> raw = elems.
Proof.
  revert raw. induction elems as [|x xs IH]; intros raw H.
  - by injection H as <-.
  - apply mapM_result_cons in H as (b & bs & Hb & Hbs & ->).
    cbn [fmap list_fmap]. fold (fmap (M := list) (fun b => VInt (Z_of_byte b))).
    rewrite (IH bs Hbs). f_equal.
    destruct x as [| |n| | | |]; try done. unfold StdCodec.byte_of_value in Hb.
    case_decide as Hn; [| done]. injection Hb as <-.
    rewrite Z_of_byte_of_Z. f_equal. apply Z.mod_small. lia.
Qed.

Lemma StdCodec_dynamic_prefixed (t : AbiType) :
  StdCodec.dynamic t = true →
  StdCodec.requiresLengthPrefix t = true ∧ isArrayTy t = false.
Proof.
  unfold StdCodec.dynamic, StdCodec.requiresLengthPrefix, isArrayTy.
  intros H. apply bool_decide_eq_true in H. rewrite H. done.
Qed.

Lemma StdCodec_dynamic_decode (t : AbiType) (v : value)
    (p before between after : list byte) :
  StdCodec.dynamic t = true → StdCodec.pack t v = Ok p →
  len (before ++ packNum (len before + 32 + len between) ++ between ++ p ++ after)
    <= int_max →
  StdCodec.toGoType (len before) t
    (before ++ packNum (len before + 32 + len between) ++ between ++ p ++ after)
  = Ok v.
Proof.
  intros Hdyn Hp Hfit. destruct t as [k n next].
  apply bool_decide_eq_true in Hdyn. simpl in Hdyn. subst k.
  assert (∃ elems raw, v = VSlice elems
                       ∧ mapM StdCodec.byte_of_value elems = Ok raw
                       ∧ p = StdCodec.packBytesSlice raw (len raw))
    as (elems & raw & -> & Hraw & ->).
  { destruct next; cbn [StdCodec.pack] in Hp;
      (destruct v as [| | | | elems| |]; try done;
       destruct (mapM StdCodec.byte_of_value elems) as [raw|?|?] eqn:Hm;
       [| done | done]; cbn in Hp; injection Hp as <-; by exists elems, raw). }
  clear Hp. unfold StdCodec.packBytesSlice, StdCodec.RightPadBytes in *.
  set (off := len before + 32 + len between) in *.
  set (pad := replicate ((length raw + 31) / 32 * 32 - length raw) Byte.x00) in *.
  set (data := before ++ packNum off ++ between
               ++ (packNum (len raw) ++ raw ++ pad) ++ after) in *.
  pose proof (len_nonneg before). pose proof (len_nonneg between).
  pose proof (len_nonneg raw). pose proof (len_nonneg pad).
  pose proof (len_nonneg after).
  assert (len data = off + 32 + len raw + len pad + len after) as Hlen.
  { unfold data, off. rewrite !len_app, !len_packNum. lia. }
  assert (int_max < 2 ^ 256) as Hmax by (unfold int_max; lia).
  assert (StdCodec.lengthPrefixPointsTo (len before) data = Ok (off + 32, len raw))
    as Hprefix.
  { unfold StdCodec.lengthPrefixPointsTo.
    assert (StdCodec.slice (len before) (len before + 32) data = packNum off) as ->.
    { unfold data. apply slice_word, len_packNum. }
    rewrite be_value_packNum by lia.
    case_decide; [lia|].
    assert (StdCodec.slice off (off + 32) data = packNum (len raw)) as ->.
    { replace data with ((before ++ packNum off ++ between)
                         ++ packNum (len raw) ++ (raw ++ pad ++ after))
        by (unfold data; by rewrite <- !app_assoc).
      replace off with (len (before ++ packNum off ++ between))
        by (rewrite !len_app, len_packNum; unfold off; lia).
      rewrite !len_app, len_packNum.
      replace (len before + (32 + len between)) with off by (unfold off; lia).
      replace off with (len (before ++ packNum off ++ between)) at 1 2
        by (rewrite !len_app, len_packNum; unfold off; lia).
      apply slice_word, len_packNum. }
    rewrite be_value_packNum by lia.
    case_decide; [lia | done]. }
  assert (StdCodec.toGoType (len before) (MkType BytesTy n next) data
          = '(begin, length) ← StdCodec.lengthPrefixPointsTo (len before) data;
            Ok (VSlice ((fun b => VInt (Z_of_byte b))
                          <$> StdCodec.slice begin (begin + length) data))) as ->.
  { destruct next; cbn [StdCodec.toGoType]; (case_decide; [lia | done]). }
  rewrite Hprefix. cbn [mbind result_bind]. do 2 f_equal.
  rewrite <- (byte_of_value_back elems raw Hraw). f_equal.
  replace data with ((before ++ packNum off ++ between ++ packNum (len raw))
                     ++ raw ++ (pad ++ after))
    by (unfold data; by rewrite <- !app_assoc).
  replace (off + 32) with (len (before ++ packNum off ++ between ++ packNum (len raw)))
    by (rewrite !len_app, !len_packNum; unfold off; lia).
  apply slice_middle.
Qed.

(** The round-trip law for this codec: non-indexed arguments that are
    unsigned integers, booleans, non-empty fixed arrays of these that are
    not nested, or byte arrays. *)
Theorem StdCodec_roundtrip (arguments : Arguments) (args : list value)
    (packed : list (list byte)) :
  Forall (fun arg => Indexed arg = false) arguments →
  Forall (covered (fun t => StdCodec.static t = true)
                  (fun t => StdCodec.dynamic t = true)) arguments →
  Forall3 (fun abiArg a p => StdCodec.pack (Type_ abiArg) a = Ok p)
          arguments args packed →
  headSize arguments
  + len (layoutTail (codec := StdCodec.codec) (layoutItems arguments packed))
    <= int_max →
  ∃ data, Pack (codec := StdCodec.codec) arguments args = Ok data
          ∧ UnpackValues (codec := StdCodec.codec) arguments data = Ok args.
Proof.
  apply (Pack_UnpackValues_roundtrip (codec := StdCodec.codec)).
  - apply StdCodec_static_inline.
  - apply StdCodec_static_length.
  - apply StdCodec_static_decode.
  - apply StdCodec_dynamic_prefixed.
  - apply StdCodec_dynamic_decode.
Qed.

(** C1. The round-trip law fails on a nested array followed by a dynamic
    argument: [Pack] counts 32 * 2 bytes for the 2x3 array, which takes
    32 * 6, so the offset it writes for the byte array points into the
    head, and [UnpackValues] hands back other bytes than were packed. *)
Theorem Pack_UnpackValues_nested_array :
  Forall (fun arg => Indexed arg = false) Samples.gridThenBytes
  ∧ inputOffset Samples.gridThenBytes = 96
  ∧ (∃ data,
       Pack (codec := StdCodec.codec) Samples.gridThenBytes
            Samples.gridThenBytesValues = Ok data
       ∧ length data = 288%nat
       ∧ take 32 (drop 192 data) = packNum 96
       ∧ UnpackValues (codec := StdCodec.codec) Samples.gridThenBytes data
         = Ok [Samples.gridValue; Samples.bytesOf [0; 0; 0; 0]])
  ∧ Samples.gridThenBytesValues ≠ [Samples.gridValue; Samples.bytesOf [0; 0; 0; 0]].
Proof.
  split; [repeat constructor|]. split; [reflexivity|]. split.
  - eexists. split; [vm_compute; reflexivity|].
    split; [reflexivity|]. split; [reflexivity|]. vm_compute. reflexivity.
  - discriminate.
Qed.

(** The round trip on the argument lists of the specification's own
    checks: two dynamic arguments around a scalar, by the law above, and
    a nested fixed array followed by a scalar, where the head size [Pack]
    computes is wrong but never used. *)
Example Pack_UnpackValues_mixed :
  ∃ data,
    Pack (codec := StdCodec.codec) Samples.mixedArgs Samples.mixedValues = Ok data
    ∧ UnpackValues (codec := StdCodec.codec) Samples.mixedArgs data
      = Ok Samples.mixedValues.
Proof.
  apply (StdCodec_roundtrip Samples.mixedArgs Samples.mixedValues
           Samples.mixedPacked).
  - repeat constructor.
  - repeat constructor; (by right) || (by left).
  - repeat constructor.
  - vm_compute. discriminate.
Qed.

Example Pack_UnpackValues_grid_then_uint :
  (data ← Pack (codec := StdCodec.codec) Samples.gridThenUint
                [Samples.gridValue; VInt 9];
   UnpackValues (codec := StdCodec.codec) Samples.gridThenUint data)
  = Ok [Samples.gridValue; VInt 9].
Proof. vm_compute. reflexivity. Qed.

(* ===================================================================== *)
(** ** Further properties of the argument list *)
(* ===================================================================== *)

Lemma LengthNonIndexed_acc (arguments : Arguments) (out : Z) :
  0 <= out → out + len arguments <= int_max →
  fold_left (fun out arg => if Indexed arg then out else int_add out 1)
            arguments out
  = out + len (filter (fun arg => Indexed arg = false) arguments).
Proof.
  revert out. induction arguments as [|arg rest IH]; intros out Hout Hfit.
  - unfold len. simpl. lia.
  - assert (len (arg :: rest) = 1 + len rest) as Hlen
      by (unfold len; simpl length; lia).
    rewrite Hlen in Hfit. pose proof (len_nonneg rest).
    cbn [fold_left]. destruct (Indexed arg) eqn:Hi.
    + rewrite filter_cons_False by (simpl; congruence). apply IH; lia.
    + rewrite filter_cons_True by done.
      unfold int_add. rewrite wrap_int_id by (unfold in_int, int_min; lia).
      rewrite IH by lia. unfold len. simpl length. lia.
Qed.

(** X1. [NonIndexed] keeps exactly the arguments that are not indexed, in
    their order, and [LengthNonIndexed] is the length of what it keeps
    (the list being of a length Go's [int] can hold). *)
Theorem LengthNonIndexed_NonIndexed (arguments : Arguments) :
  len arguments <= int_max →
  NonIndexed arguments = filter (fun arg => Indexed arg = false) arguments
  ∧ LengthNonIndexed arguments = len (NonIndexed arguments).
Proof.
  intros Hfit. split; [apply NonIndexed_filter|].
  unfold LengthNonIndexed. rewrite NonIndexed_filter.
  rewrite LengthNonIndexed_acc; lia.
Qed.

Lemma LengthNonIndexed_NonIndexed_witness :
  NonIndexed Samples.eventArgs = [Samples.plain "amount" Samples.uint256]
  ∧ LengthNonIndexed Samples.eventArgs = 1.
Proof.
  destruct (LengthNonIndexed_NonIndexed Samples.eventArgs) as [H1 H2].
  - vm_compute. discriminate.
  - rewrite H2, H1. split; reflexivity.
Defined.



Section FurtherUnpackValues.
Context `{codec : TypeCodec}.

Lemma UnpackValues_loop_decoded (data : list byte) (index : nat)
    (nonIndexed : list Argument) (virtualArgs : Z) (retval vs : list value) :
  UnpackValues_loop data index nonIndexed virtualArgs retval = Ok vs →
  ∃ decoded, vs = retval ++ decoded
    ∧ Forall2 (fun arg v => ∃ offset, toGoType offset (Type_ arg) data = Ok v)
              nonIndexed decoded.
Proof.
  revert index virtualArgs retval.
  induction nonIndexed as [|arg rest IH]; intros index virtualArgs retval H.
  - simpl in H. injection H as <-. exists []. by rewrite app_nil_r.
  - cbn [UnpackValues_loop] in H.
    destruct (if isArrayTy (Type_ arg) then _ else _) as [va|e|p];
      [| discriminate H | discriminate H].
    cbn [mbind result_bind] in H.
    destruct (toGoType _ _ _) as [v|e|p] eqn:Hv;
      [| discriminate H | discriminate H].
    cbn [mbind result_bind] in H.
    apply IH in H as (decoded & -> & Hall).
    exists (v :: decoded). split; [by rewrite <- app_assoc|].
    constructor; [by eexists | done].
Qed.

End FurtherUnpackValues.

(** X3. When [UnpackValues] succeeds it returns one value for each
    non-indexed argument, in their order, each one decoded from the data
    by the codec at that argument's type. *)
Theorem UnpackValues_one_per_argument `{codec : TypeCodec}
    (arguments : Arguments) (data : list byte) (vs : list value) :
  UnpackValues arguments data = Ok vs →
  length vs = length (NonIndexed arguments)
  ∧ Forall2 (fun arg v => ∃ offset, toGoType offset (Type_ arg) data = Ok v)
            (NonIndexed arguments) vs.
Proof.
  intros H. apply UnpackValues_loop_decoded in H as (decoded & -> & Hall).
  simpl. split; [| done]. symmetry. by eapply Forall2_length.
Qed.

Lemma UnpackValues_one_per_argument_witness :
  length [VInt 7] = length (NonIndexed Samples.eventArgs).
Proof.
  apply (UnpackValues_one_per_argument (codec := StdCodec.codec)
           Samples.eventArgs (packNum 7) [VInt 7]).
  vm_compute. reflexivity.
Defined.

(* ===================================================================== *)
(** ** Further properties of the encoders *)
(* ===================================================================== *)

Lemma lookup_same_types (a b : Arguments) (i : nat) :
  Type_ <$> a = Type_ <$> b →
  Type_ <$> (a !! i) = Type_ <$> (b !! i).
Proof. intros H. by rewrite <- !list_lookup_fmap, H. Qed.

Section EncoderTypes.
Context `{codec : TypeCodec}.

Lemma inputOffset_same_types (a b : Arguments) :
  Type_ <$> a = Type_ <$> b → inputOffset a = inputOffset b.
Proof.
  unfold inputOffset. generalize 0.
  revert b. induction a as [|x a IH]; intros [|y b] off H; try done.
  injection H as Hxy Hab. cbn [fold_left]. rewrite Hxy. by apply IH.
Qed.

Lemma Pack_loop_same_types (a b : Arguments) (off : Z) (i : nat)
    (args : list value) (ret variableInput : list byte) :
  Type_ <$> a = Type_ <$> b →
  Pack_loop a off i args ret variableInput
  = Pack_loop b off i args ret variableInput.
Proof.
  intros H. revert i ret variableInput.
  induction args as [|x args IH]; intros i ret variableInput; [done|].
  cbn [Pack_loop]. pose proof (lookup_same_types a b i H) as Hi.
  destruct (a !! i) as [ia|], (b !! i) as [ib|]; try done.
  injection Hi as ->.
  destruct (pack (Type_ ib) x); [| done | done]. cbn [mbind result_bind].
  destruct (requiresLengthPrefix (Type_ ib)); apply IH.
Qed.

Lemma PackPrefix_loop_same_types (a b : Arguments) (i : nat)
    (args : list value) (result_ : list PKr) :
  Type_ <$> a = Type_ <$> b →
  PackPrefix_loop a i args result_ = PackPrefix_loop b i args result_.
Proof.
  intros H. revert i result_.
  induction args as [|x args IH]; intros i result_; [done|].
  cbn [PackPrefix_loop]. pose proof (lookup_same_types a b i H) as Hi.
  destruct (a !! i) as [ia|], (b !! i) as [ib|]; try done.
  injection Hi as ->.
  destruct (getAllAddress (Type_ ib) x); [| done | done].
  cbn [mbind result_bind]. apply IH.
Qed.

End EncoderTypes.

(** X4. The encoders look at the types of the arguments only: two
    argument lists with the same types, whatever the names and the
    indexed flags, are packed alike by [Pack] and by [PackPrefix]. An
    indexed argument is packed like any other. *)
Theorem Pack_types_only `{codec : TypeCodec}
    (a b : Arguments) (args : list value) :
  Type_ <$> a = Type_ <$> b →
  Pack a args = Pack b args ∧ PackPrefix a args = PackPrefix b args.
Proof.
  intros H.
  assert (len a = len b) as Hlen.
  { unfold len. f_equal. by rewrite <- (length_fmap Type_ a), H, length_fmap. }
  unfold Pack, PackPrefix. rewrite Hlen. split.
  - destruct (decide (len args ≠ len b)); [done|].
    rewrite (inputOffset_same_types a b H). by apply Pack_loop_same_types.
  - destruct (decide (len args ≠ len b)); [done|].
    by rewrite (PackPrefix_loop_same_types a b 0 args [] H).
Qed.

Lemma Pack_types_only_witness :
  Pack (codec := StdCodec.codec) Samples.eventArgs [VInt 1; VInt 2]
  = Pack (codec := StdCodec.codec)
      [Samples.plain "from" Samples.uint256; Samples.plain "amount" Samples.uint256]
      [VInt 1; VInt 2].
Proof.
  apply (Pack_types_only (codec := StdCodec.codec) Samples.eventArgs
           [Samples.plain "from" Samples.uint256;
            Samples.plain "amount" Samples.uint256]
           [VInt 1; VInt 2]).
  reflexivity.
Defined.

Section EncoderOutcome.
Context `{codec : TypeCodec}.

Lemma Pack_loop_first_failure (pre rest : Arguments) (args : list value)
    (off : Z) (i : nat) (abiArg : Argument) (a : value) (e : error)
    (ret variableInput : list byte) :
  length args = length rest →
  rest !! i = Some abiArg → args !! i = Some a →
  pack (Type_ abiArg) a = Err e →
  (∀ j abiArg' a', (j < i)%nat → rest !! j = Some abiArg' → args !! j = Some a' →
                   is_Ok (pack (Type_ abiArg') a') = true) →
  Pack_loop (pre ++ rest) off (length pre) args ret variableInput = Err e.
Proof.
  revert pre rest args ret variableInput.
  induction i as [|i IH]; intros pre rest args ret variableInput
    Hlen Hrest Hargs Hfail Hbefore.
  - destruct rest as [|b rest], args as [|a' args]; try discriminate.
    simpl in Hrest, Hargs. injection Hrest as ->. injection Hargs as ->.
    cbn [Pack_loop]. rewrite list_lookup_middle by done. by rewrite Hfail.
  - destruct rest as [|b rest], args as [|a' args]; try discriminate.
    simpl in Hrest, Hargs, Hlen.
    cbn [Pack_loop]. rewrite list_lookup_middle by done.
    pose proof (Hbefore 0%nat b a' ltac:(lia) eq_refl eq_refl) as Hok.
    destruct (pack (Type_ b) a') as [p| |]; [| done | done].
    cbn [mbind result_bind].
    replace (pre ++ b :: rest) with ((pre ++ [b]) ++ rest)
      by (by rewrite <- app_assoc).
    replace (S (length pre)) with (length (pre ++ [b]))
      by (rewrite length_app; simpl; lia).
    destruct (requiresLengthPrefix (Type_ b));
      (apply IH; [lia | done | done | done |];
       intros j abiArg' a'' Hj; apply (Hbefore (S j)); lia).
Qed.

(** The number of bytes [Pack] gives, whatever the offsets it writes. *)
Lemma Pack_loop_length (pre rest : Arguments) (args : list value)
    (packed : list (list byte)) (off : Z) (ret variableInput : list byte) :
  Forall3 (fun abiArg a p => pack (Type_ abiArg) a = Ok p) rest args packed →
  ∃ data,
    Pack_loop (pre ++ rest) off (length pre) args ret variableInput = Ok data
    ∧ length data
      = (length ret + length variableInput + length (concat packed)
         + 32 * length (filter (fun abiArg =>
                                  requiresLengthPrefix (Type_ abiArg) = true) rest))%nat.
Proof.
  intros Hall. revert pre ret variableInput.
  induction Hall as [|abiArg a p rest args packed Hp _ IH];
    intros pre ret variableInput.
  - eexists. split; [reflexivity|]. rewrite length_app. simpl. lia.
  - cbn [Pack_loop]. rewrite list_lookup_middle by done.
    rewrite Hp. cbn [mbind result_bind].
    replace (pre ++ abiArg :: rest) with ((pre ++ [abiArg]) ++ rest)
      by (by rewrite <- app_assoc).
    replace (S (length pre)) with (length (pre ++ [abiArg]))
      by (rewrite length_app; simpl; lia).
    destruct (requiresLengthPrefix (Type_ abiArg)) eqn:Hdyn.
    + destruct (IH (pre ++ [abiArg])
                   (ret ++ packNum (int_add off (len variableInput)))
                   (variableInput ++ p)) as (data & -> & Hlen).
      exists data. split; [done|]. rewrite Hlen.
      rewrite filter_cons_True by done.
      cbn [concat length]. rewrite !length_app, length_packNum. lia.
    + destruct (IH (pre ++ [abiArg]) (ret ++ p) variableInput)
        as (data & -> & Hlen).
      exists data. split; [done|]. rewrite Hlen.
      rewrite filter_cons_False by (simpl; congruence).
      cbn [concat]. rewrite !length_app. lia.
Qed.

Lemma Pack_loop_packed (pre rest : Arguments) (args : list value)
    (off : Z) (ret variableInput data : list byte) :
  length args = length rest →
  Pack_loop (pre ++ rest) off (length pre) args ret variableInput = Ok data →
  ∃ packed,
    Forall3 (fun abiArg a p => pack (Type_ abiArg) a = Ok p) rest args packed.
Proof.
  revert pre args ret variableInput.
  induction rest as [|abiArg rest IH]; intros pre args ret variableInput Hlen H.
  - destruct args; [| discriminate Hlen]. exists []. constructor.
  - destruct args as [|a args]; [discriminate Hlen|].
    cbn [Pack_loop] in H. rewrite list_lookup_middle in H by done.
    destruct (pack (Type_ abiArg) a) as [p| |] eqn:Hp;
      [| discriminate H | discriminate H].
    cbn [mbind result_bind] in H.
    replace (pre ++ abiArg :: rest) with ((pre ++ [abiArg]) ++ rest) in H
      by (by rewrite <- app_assoc).
    replace (S (length pre)) with (length (pre ++ [abiArg])) in H
      by (rewrite length_app; simpl; lia).
    destruct (requiresLengthPrefix (Type_ abiArg));
      (apply IH in H as [packed Hall]; [| simpl in Hlen; lia];
       exists (p :: packed); by constructor).
Qed.

End EncoderOutcome.

(** X5. [Pack] stops at the first value that does not pack and returns
    the codec's error for it unchanged, whatever comes after. *)
Theorem Pack_first_failure `{codec : TypeCodec}
    (arguments : Arguments) (args : list value)
    (i : nat) (abiArg : Argument) (a : value) (e : error) :
  length args = length arguments →
  arguments !! i = Some abiArg → args !! i = Some a →
  pack (Type_ abiArg) a = Err e →
  (∀ j abiArg' a', (j < i)%nat →
     arguments !! j = Some abiArg' → args !! j = Some a' →
     is_Ok (pack (Type_ abiArg') a') = true) →
  Pack arguments args = Err e.
Proof.
  intros Hlen Harg Ha Hfail Hbefore. unfold Pack.
  destruct (decide (len args ≠ len arguments)) as [Hne|_].
  { exfalso. apply Hne. unfold len. lia. }
  by apply (Pack_loop_first_failure [] arguments args _ i abiArg a e [] []).
Qed.

Lemma Pack_first_failure_witness :
  Pack (codec := StdCodec.codec) Samples.mixedArgs
       [Samples.bytesOf [1]; VBool true; VInt 3]
  = Err (ErrCollaborator "type mismatch").
Proof.
  apply (Pack_first_failure (codec := StdCodec.codec) Samples.mixedArgs
           [Samples.bytesOf [1]; VBool true; VInt 3] 1
           (Samples.plain "amount" Samples.uint256) (VBool true)).
  - reflexivity.
  - reflexivity.
  - reflexivity.
  - reflexivity.
  - intros [|j] abiArg' a' Hj H1 H2; [| lia].
    injection H1 as <-. injection H2 as <-. reflexivity.
Defined.

(** X6. [Pack] succeeds exactly when there are as many values as
    arguments and every value packs; the bytes it returns are as many as
    the packed values take together, plus 32 for each argument whose type
    requires a length prefix. *)
Theorem Pack_succeeds `{codec : TypeCodec}
    (arguments : Arguments) (args : list value) :
  ((∃ data, Pack arguments args = Ok data)
   ↔ ∃ packed, Forall3 (fun abiArg a p => pack (Type_ abiArg) a = Ok p)
                       arguments args packed)
  ∧ ∀ packed data,
      Forall3 (fun abiArg a p => pack (Type_ abiArg) a = Ok p)
              arguments args packed →
      Pack arguments args = Ok data →
      length data
      = (length (concat packed)
         + 32 * length (filter (fun abiArg =>
                                  requiresLengthPrefix (Type_ abiArg) = true)
                               arguments))%nat.
Proof.
  assert (∀ packed,
            Forall3 (fun abiArg a p => pack (Type_ abiArg) a = Ok p)
                    arguments args packed →
            ∃ data, Pack arguments args = Ok data
              ∧ length data
                = (length (concat packed)
                   + 32 * length (filter (fun abiArg =>
                                requiresLengthPrefix (Type_ abiArg) = true)
                                arguments))%nat) as Hok.
  { intros packed Hall. unfold Pack.
    destruct (decide (len args ≠ len arguments)) as [Hne|_].
    { exfalso. apply Hne. unfold len.
      apply Forall3_length_lm in Hall. lia. }
    destruct (Pack_loop_length [] arguments args packed
                (inputOffset arguments) [] [] Hall) as (data & Hdata & Hlen).
    exists data. split; [exact Hdata|]. rewrite Hlen. simpl. lia. }
  split; [split|].
  - intros [data H]. unfold Pack in H.
    destruct (decide (len args ≠ len arguments)) as [|Hlen]; [discriminate H|].
    apply (Pack_loop_packed [] arguments args (inputOffset arguments) [] [] data);
      [| exact H].
    unfold len in Hlen. lia.
  - intros [packed Hall]. destruct (Hok packed Hall) as (data & H & _).
    by exists data.
  - intros packed data Hall H. destruct (Hok packed Hall) as (data' & H' & Hlen).
    rewrite H in H'. by injection H' as <-.
Qed.

Lemma Pack_succeeds_witness :
  ∃ data, Pack (codec := StdCodec.codec) Samples.mixedArgs Samples.mixedValues
          = Ok data
          ∧ length data = 224%nat.
Proof.
  destruct (Pack_succeeds (codec := StdCodec.codec) Samples.mixedArgs
              Samples.mixedValues) as [[_ Hex] Hlen].
  destruct Hex as [data Hdata].
  - exists Samples.mixedPacked. repeat constructor.
  - exists data. split; [exact Hdata|].
    rewrite (Hlen Samples.mixedPacked data); [reflexivity | | exact Hdata].
    repeat constructor.
Defined.

(** X7. [PackValues] is the opposite of [UnpackValues] on the argument
    lists without indexed arguments and without nested arrays: for a
    codec whose static types are laid out inline on their slots and
    decode from there, and whose dynamic types decode through the offset
    in their head slot, unpacking what [PackValues] gives returns the
    values that were packed. *)
Theorem PackValues_UnpackValues `{codec : TypeCodec}
    (static dynamic : AbiType → Prop)
    (arguments : Arguments) (args : list value) (packed : list (list byte)) :
  (∀ t, static t → requiresLengthPrefix t = false) →
  (∀ t v p, static t → pack t v = Ok p → len p = 32 * flattenedSize t) →
  (∀ t v p before after,
     static t → pack t v = Ok p →
     toGoType (len before) t (before ++ p ++ after) = Ok v) →
  (∀ t, dynamic t → requiresLengthPrefix t = true ∧ isArrayTy t = false) →
  (∀ t v p before between after,
     dynamic t → pack t v = Ok p →
     len (before ++ packNum (len before + 32 + len between) ++ between ++ p ++ after)
       <= int_max →
     toGoType (len before) t
       (before ++ packNum (len before + 32 + len between) ++ between ++ p ++ after)
     = Ok v) →
  Forall (fun arg => Indexed arg = false) arguments →
  Forall (covered static dynamic) arguments →
  Forall3 (fun abiArg a p => pack (Type_ abiArg) a = Ok p) arguments args packed →
  headSize arguments + len (layoutTail (layoutItems arguments packed)) <= int_max →
  ∃ data, PackValues arguments args = Ok data
          ∧ UnpackValues arguments data = Ok args.
Proof.
  intros H1 H2 H3 H4 H5 Hplain Hcov Hall Hfit. unfold PackValues.
  by apply (Pack_UnpackValues_roundtrip static dynamic H1 H2 H3 H4 H5
              arguments args packed).
Qed.

Lemma PackValues_UnpackValues_witness :
  ∃ data,
    PackValues (codec := StdCodec.codec) Samples.mixedArgs Samples.mixedValues
    = Ok data
    ∧ UnpackValues (codec := StdCodec.codec) Samples.mixedArgs data
      = Ok Samples.mixedValues.
Proof.
  apply (PackValues_UnpackValues (codec := StdCodec.codec)
           (fun t => StdCodec.static t = true)
           (fun t => StdCodec.dynamic t = true)
           Samples.mixedArgs Samples.mixedValues Samples.mixedPacked).
  - apply StdCodec_static_inline.
  - apply StdCodec_static_length.
  - apply StdCodec_static_decode.
  - apply StdCodec_dynamic_prefixed.
  - apply StdCodec_dynamic_decode.
  - repeat constructor.
  - repeat constructor; (by right) || (by left).
  - repeat constructor.
  - vm_compute. discriminate.
Defined.

Lemma getArraySize_loop_nil (e : AbiType) (size : Z) :
  has_elems e = false → getArraySize_loop size e = Panic NilDereference.
Proof.
  revert size. induction e as [k n|k n e IH] using AbiType_elem_ind;
    intros size H.
  - by destruct k.
  - destruct k; try discriminate H. simpl in *. by apply IH.
Qed.

(** X8. On an array type, [getArraySize] multiplies the declared sizes of
    the nested array levels in Go's [int]: it returns the product as a
    machine integer, the product itself when that fits, and it panics on
    a nil element type when some array level has none. *)
Theorem getArraySize_spec (t : AbiType) :
  isArrayTy t = true →
  (has_elems t = true →
   ∃ r, getArraySize t = Ok r
        ∧ same_int r (flattenedSize t)
        ∧ (in_int (flattenedSize t) → r = flattenedSize t))
  ∧ (has_elems t = false → getArraySize t = Panic NilDereference).
Proof.
  intros Harr. split; [by apply getArraySize_flattenedSize|].
  intros Hnil. destruct t as [k n [e|]]; [| done].
  apply isArrayTy_true in Harr. simpl in Harr. subst k. simpl in Hnil.
  unfold getArraySize. simpl. by apply getArraySize_loop_nil.
Qed.

Lemma getArraySize_spec_witness :
  getArraySize (Samples.arrayOf 4 (Samples.arrayOf 5 Samples.uint256)) = Ok 20
  ∧ getArraySize (Samples.arrayOf (2 ^ 62) (Samples.arrayOf 4 Samples.uint256))
    = Ok 0
  ∧ getArraySize (Samples.arrayOf 2 (MkType ArrayTy 3 None))
    = Panic NilDereference.
Proof.
  split; [| split].
  - destruct (getArraySize_spec
                (Samples.arrayOf 4 (Samples.arrayOf 5 Samples.uint256)))
      as [H _]; [reflexivity|].
    destruct H as (r & -> & _ & Hr); [reflexivity|].
    rewrite Hr; [reflexivity|]. vm_compute. split; discriminate.
  - reflexivity.
  - destruct (getArraySize_spec (Samples.arrayOf 2 (MkType ArrayTy 3 None)))
      as [_ H]; [reflexivity|].
    apply H. reflexivity.
Defined.

(* ===================================================================== *)
(** ** Further properties of the decoders *)
(* ===================================================================== *)

Lemma unpackIntoMap_loop_any (pre vs : list value) (nonIndexed : list Argument)
    (m : gmap string value) :
  unpackIntoMap_loop (length pre) nonIndexed (pre ++ vs) m
  = (assignAll (zip (Name <$> nonIndexed) vs) m,
     if decide (length nonIndexed <= length vs)%nat
     then Ok () else Panic IndexOutOfRange).
Proof.
  revert pre vs m. induction nonIndexed as [|arg rest IH]; intros pre vs m.
  - simpl. destruct (decide (0 <= length vs)%nat); [done | lia].
  - cbn [unpackIntoMap_loop].
    destruct vs as [|v vs].
    + rewrite app_nil_r, lookup_ge_None_2 by lia. simpl.
      destruct (decide (S (length rest) <= 0)%nat); [lia | done].
    + rewrite list_lookup_middle by done.
      replace (pre ++ v :: vs) with ((pre ++ [v]) ++ vs)
        by (by rewrite <- app_assoc).
      replace (S (length pre)) with (length (pre ++ [v]))
        by (rewrite length_app; simpl; lia).
      rewrite IH. simpl.
      destruct (decide (length rest <= length vs)%nat),
               (decide (S (length rest) <= S (length vs))%nat);
        try done; lia.
Qed.

(** X9. [unpackIntoMap] refuses a nil map before anything else. Given a
    map, it binds the names of the non-indexed arguments to the values at
    the same positions, and panics on an index out of range once the
    values run out: the bindings made so far stay in the map. Values
    beyond the arguments are not looked at. *)
Theorem unpackIntoMap_bounds
    (arguments : Arguments) (m : gmap string value)
    (marshalledValues : list value) :
  unpackIntoMap arguments None marshalledValues = (None, Err ErrNilMap)
  ∧ ((length (NonIndexed arguments) <= length marshalledValues)%nat →
     unpackIntoMap arguments (Some m) marshalledValues
     = (Some (assignAll (zip (Name <$> NonIndexed arguments) marshalledValues) m),
        Ok ()))
  ∧ ((length marshalledValues < length (NonIndexed arguments))%nat →
     unpackIntoMap arguments (Some m) marshalledValues
     = (Some (assignAll (zip (Name <$> NonIndexed arguments) marshalledValues) m),
        Panic IndexOutOfRange)).
Proof.
  split; [reflexivity|].
  pose proof (unpackIntoMap_loop_any [] marshalledValues
                (NonIndexed arguments) m) as H.
  simpl in H. unfold unpackIntoMap. rewrite H.
  split; intros Hlen;
    destruct (decide (length (NonIndexed arguments)
                      <= length marshalledValues)%nat); try done; lia.
Qed.

Lemma unpackIntoMap_bounds_witness :
  unpackIntoMap Samples.mixedArgs (Some ∅)
                [VInt 1; VInt 2; VInt 3; VInt 4]
  = (Some (<["note" := VInt 3]> (<["amount" := VInt 2]> (<["memo" := VInt 1]> ∅))),
     Ok ())
  ∧ unpackIntoMap Samples.mixedArgs (Some ∅) [VInt 1]
    = (Some (<["memo" := VInt 1]> ∅), Panic IndexOutOfRange).
Proof.
  split.
  - destruct (unpackIntoMap_bounds Samples.mixedArgs ∅
                [VInt 1; VInt 2; VInt 3; VInt 4]) as (_ & H & _).
    rewrite H; [reflexivity | simpl; lia].
  - destruct (unpackIntoMap_bounds Samples.mixedArgs ∅
                [VInt 1]) as (_ & _ & H).
    rewrite H; [reflexivity | simpl; lia].
Defined.

Lemma dom_assignAll (bindings : list (string * value)) (m : gmap string value) :
  dom (assignAll bindings m) = dom m ∪ list_to_set bindings.*1.
Proof.
  revert m. induction bindings as [|[n x] rest IH]; intros m.
  - simpl. by rewrite union_empty_r_L.
  - unfold assignAll in *. cbn [fold_left fst snd fmap list_fmap list_to_set].
    rewrite IH, dom_insert_L.
    rewrite (union_comm_L {[n]} (dom m)), <- union_assoc_L. done.
Qed.

(** X10. When [UnpackIntoMap] succeeds, the keys of the map are the keys
    it had and the names of the non-indexed arguments: no key is removed,
    and a key that is no such name keeps its value. *)
Theorem UnpackIntoMap_keys `{codec : TypeCodec}
    (arguments : Arguments) (data : list byte) (m m' : gmap string value) :
  UnpackIntoMap arguments (Some m) data = (Some m', Ok ()) →
  dom m' = dom m ∪ list_to_set (Name <$> NonIndexed arguments)
  ∧ ∀ k, k ∉ Name <$> NonIndexed arguments → m' !! k = m !! k.
Proof.
  intros H. unfold UnpackIntoMap in H.
  destruct (UnpackValues arguments data) as [vs| |] eqn:Hvs;
    [| discriminate H | discriminate H].
  apply UnpackValues_length in Hvs.
  unfold unpackIntoMap in H.
  pose proof (unpackIntoMap_loop_ok [] vs (NonIndexed arguments) m Hvs) as Hloop.
  simpl in Hloop. rewrite Hloop in H. injection H as <-.
  assert ((zip (Name <$> NonIndexed arguments) vs).*1
          = Name <$> NonIndexed arguments) as Hnames.
  { apply fst_zip. rewrite length_fmap. lia. }
  split.
  - by rewrite dom_assignAll, Hnames.
  - intros k Hk. rewrite lookup_assignAll.
    destruct (lastBinding k _) as [y|] eqn:Hlast; [| done].
    exfalso. apply Hk. rewrite <- Hnames. clear -Hlast.
    induction (zip (Name <$> NonIndexed arguments) vs) as [|[n x] rest IH];
      [done|].
    simpl in Hlast. destruct (lastBinding k rest) as [z|].
    + right. by apply IH.
    + destruct (decide (n = k)) as [->|]; [left | done].
Qed.

Lemma UnpackIntoMap_keys_witness :
  dom (<["amount" := VInt 7]> ({["fee" := VInt 0]} : gmap string value))
  = dom ({["fee" := VInt 0]} : gmap string value)
    ∪ list_to_set (Name <$> NonIndexed Samples.eventArgs).
Proof.
  apply (UnpackIntoMap_keys (codec := StdCodec.codec) Samples.eventArgs
           (packNum 7) {["fee" := VInt 0]}).
  vm_compute. reflexivity.
Defined.

Section FurtherUnpackTuple.
Context `{refl : Reflection}.

Lemma unpackTuple_index_loop_ok (i : nat) (nonIndexedArgs : list Argument)
    (marshalledValues elems elems' : list value) :
  unpackTuple_index_loop i nonIndexedArgs marshalledValues elems
  = (elems', Ok ()) →
  length elems' = length elems
  ∧ (∀ j, (j < i ∨ i + length nonIndexedArgs <= j)%nat →
          elems' !! j = elems !! j)
  ∧ (∀ j, (i <= j < i + length nonIndexedArgs)%nat →
          ∃ old v y, elems !! j = Some old ∧ marshalledValues !! j = Some v
                     ∧ set old v = Ok y ∧ elems' !! j = Some y).
Proof.
  revert i elems. induction nonIndexedArgs as [|arg rest IH]; intros i elems H.
  - simpl in H. injection H as <-. split; [done|]. split; [done|].
    intros j Hj. simpl in Hj. lia.
  - cbn [unpackTuple_index_loop] in H.
    destruct (elems !! i) as [slot|] eqn:Hslot; [| by destruct (marshalledValues !! i)].
    destruct (marshalledValues !! i) as [x|] eqn:Hx; [| done].
    destruct (set slot x) as [slot'| |] eqn:Hset; [| done | done].
    apply IH in H as (Hlen & Hframe & Hset').
    rewrite length_insert in Hlen. split; [done|]. split.
    + intros j Hj. simpl in Hj. rewrite Hframe by lia.
      apply list_lookup_insert_ne. lia.
    + intros j Hj. simpl in Hj. destruct (decide (j = i)) as [->|Hne].
      * exists slot, x, slot'. repeat split; try done.
        rewrite Hframe by lia. apply list_lookup_insert_eq.
        by eapply lookup_lt_Some.
      * destruct (Hset' j ltac:(lia)) as (old & v & y & Hold & Hv & Hy & Hnew).
        exists old, v, y. repeat split; try done.
        by rewrite list_lookup_insert_ne in Hold by lia.
Qed.

Lemma FieldByName_store_other (fields : list (string * value)) (j0 : nat)
    (f0 name : string) (x0 y : value) :
  fields !! j0 = Some (f0, x0) → name ≠ f0 →
  FieldByName (store_field fields j0 y) name = FieldByName fields name.
Proof.
  unfold store_field. intros Hj0 Hne. rewrite Hj0.
  revert j0 Hj0. induction fields as [|[f x] rest IH]; intros j0 Hj0; [done|].
  destruct j0 as [|j0]; simpl in *.
  - injection Hj0 as -> ->. by destruct (decide (f0 = name)).
  - destruct (decide (f = name)); [done|]. by rewrite (IH j0 Hj0).
Qed.

Lemma unpackTuple_struct_loop_values (abi2struct : gmap string string)
    (i : nat) (nonIndexedArgs : list Argument) (marshalledValues : list value)
    (fields fields' : list (string * value)) :
  unpackTuple_struct_loop abi2struct i nonIndexedArgs marshalledValues fields
  = (fields', Ok ()) →
  NoDup ((fun arg => default EmptyString (abi2struct !! Name arg))
           <$> nonIndexedArgs) →
  ∀ k arg, nonIndexedArgs !! k = Some arg →
    ∃ j old v y,
      FieldByName fields (default EmptyString (abi2struct !! Name arg))
      = Some (j, old)
      ∧ marshalledValues !! (i + k)%nat = Some v
      ∧ set old v = Ok y
      ∧ fields' !! j = Some (default EmptyString (abi2struct !! Name arg), y).
Proof.
  revert i fields. induction nonIndexedArgs as [|a rest IH];
    intros i fields H Hdup k arg Hk; [done|].
  cbn [unpackTuple_struct_loop] in H.
  destruct (FieldByName fields _) as [[j0 field]|] eqn:Hfield; [| done].
  destruct (marshalledValues !! i) as [x|] eqn:Hx; [| done].
  destruct (set field x) as [field'| |] eqn:Hset; [| done | done].
  cbn [fmap list_fmap] in Hdup. apply NoDup_cons in Hdup as [Hfresh Hdup].
  pose proof (FieldByName_lookup _ _ _ _ Hfield) as Hj0.
  destruct k as [|k].
  - injection Hk as <-. exists j0, field, x, field'.
    rewrite Nat.add_0_r. repeat split; try done.
    apply unpackTuple_struct_loop_frame in H as [_ Hframe].
    apply Hframe.
    + unfold store_field. rewrite Hj0. apply list_lookup_insert_eq.
      by eapply lookup_lt_Some.
    + apply Forall_forall. intros b Hb Heq. apply Hfresh.
      rewrite <- Heq. apply list_elem_of_fmap. by exists b.
  - simpl in Hk.
    destruct (IH (S i) _ H Hdup k arg Hk) as (j & old & v & y & Hf & Hv & Hy & Hnew).
    exists j, old, v, y. repeat split; try done.
    + rewrite <- Hf. symmetry. eapply FieldByName_store_other; [exact Hj0|].
      intros Heq. apply Hfresh. rewrite <- Heq.
      apply list_elem_of_fmap. exists arg. split; [done|].
      by eapply list_elem_of_lookup_2.
    + by replace (i + S k)%nat with (S i + k)%nat by lia.
Qed.

End FurtherUnpackTuple.

(** X11. [unpackTuple] with a slice or an array as destination. A
    destination shorter than the decoded values is refused, untouched,
    with the length of the full argument list as the wanted number. When
    it succeeds, the destination keeps its length, each of the first n
    positions, n the number of non-indexed arguments, holds what [set]
    made of its former content and the value at that position, and the
    positions from n on are as they were. *)
Theorem unpackTuple_positional `{refl : Reflection}
    (container : list value → value)
    (arguments : Arguments) (elems : list value)
    (marshalledValues : list value) (dst' : value) :
  container = VSlice ∨ container = VArray →
  ((length elems < length marshalledValues)%nat →
   unpackTuple arguments (container elems) marshalledValues
   = (container elems, Err (ErrInsufficient (len arguments) (len elems))))
  ∧ (unpackTuple arguments (container elems) marshalledValues = (dst', Ok ()) →
     ∃ elems',
       dst' = container elems'
       ∧ length elems' = length elems
       ∧ (∀ j, (length (NonIndexed arguments) <= j)%nat →
               elems' !! j = elems !! j)
       ∧ (∀ j, (j < length (NonIndexed arguments))%nat →
               ∃ old v y, elems !! j = Some old
                          ∧ marshalledValues !! j = Some v
                          ∧ set old v = Ok y ∧ elems' !! j = Some y)).
Proof.
  intros Hkind. split.
  - intros Hshort. destruct Hkind as [-> | ->]; unfold unpackTuple;
      (destruct (decide (len elems < len marshalledValues)) as [|Hge]; [done|];
       unfold len in Hge; lia).
  - intros H.
    assert (∃ elems', dst' = container elems'
              ∧ unpackTuple_index_loop 0 (NonIndexed arguments)
                  marshalledValues elems = (elems', Ok ()))
      as (elems' & -> & Hloop).
    { destruct Hkind as [-> | ->]; unfold unpackTuple in H;
        (destruct (decide (len elems < len marshalledValues));
           [discriminate H|];
         destruct (unpackTuple_index_loop _ _ _ _) as [elems' r];
         injection H as <- ->; by exists elems'). }
    exists elems'. split; [done|].
    apply unpackTuple_index_loop_ok in Hloop as (Hlen & Hframe & Hset).
    split; [done|]. split.
    + intros j Hj. apply Hframe. lia.
    + intros j Hj. apply Hset. lia.
Qed.

Lemma unpackTuple_positional_witness :
  unpackTuple (refl := StdCodec.refl) Samples.eventArgs
              (VSlice [VInt 0; VInt 5]) [VInt 7]
  = (VSlice [VInt 7; VInt 5], Ok ())
  ∧ unpackTuple (refl := StdCodec.refl) Samples.eventArgs
                (VSlice []) [VInt 7]
    = (VSlice [], Err (ErrInsufficient 2 0)).
Proof.
  split; [reflexivity|].
  destruct (unpackTuple_positional (refl := StdCodec.refl) VSlice
              Samples.eventArgs [] [VInt 7] VInvalid) as [H _].
  - by left.
  - apply H. simpl. lia.
Defined.

(** X12. Whatever the outcome of [unpackTuple] on a struct destination,
    an error or a panic included, the destination is a struct of the same
    fields in the same places, and a field changed only if some
    non-indexed argument resolves to it; when the field resolution itself
    fails, nothing changed. A failure half way does not undo the fields
    already assigned. *)
Theorem unpackTuple_struct_any_outcome `{refl : Reflection}
    (arguments : Arguments) (fields : list (string * value))
    (marshalledValues : list value) (dst' : value) (r : result unit) :
  unpackTuple arguments (VStruct fields) marshalledValues = (dst', r) →
  ∃ fields',
    dst' = VStruct fields'
    ∧ fields'.*1 = fields.*1
    ∧ (∀ abi2struct j f x,
         mapArgNamesToStructFields (Name <$> NonIndexed arguments)
                                   (VStruct fields) = Ok abi2struct →
         fields !! j = Some (f, x) →
         Forall (fun arg => default EmptyString (abi2struct !! Name arg) ≠ f)
                (NonIndexed arguments) →
         fields' !! j = Some (f, x))
    ∧ (is_Ok (mapArgNamesToStructFields (Name <$> NonIndexed arguments)
                                        (VStruct fields)) = false →
       fields' = fields).
Proof.
  intros H. unfold unpackTuple in H.
  destruct (mapArgNamesToStructFields _ _) as [abi2struct|e|p] eqn:Hmap.
  - destruct (unpackTuple_struct_loop _ _ _ _ _) as [fields' r'] eqn:Hloop.
    injection H as <- <-. exists fields'.
    apply unpackTuple_struct_loop_frame in Hloop as [Hnames Hframe].
    split; [done|]. split; [done|]. split; [| done].
    intros abi2struct' j f x [= <-]. apply Hframe.
  - injection H as <- <-. exists fields. repeat split; try done.
  - injection H as <- <-. exists fields. repeat split; try done.
Qed.

Lemma unpackTuple_struct_any_outcome_witness :
  unpackTuple (refl := StdCodec.refl) Samples.mixedArgs
              (VStruct [("memo", VInt 0); ("amount", VBool true); ("note", VInt 0)])
              [VInt 1; VInt 2; VInt 3]
  = (VStruct [("memo", VInt 1); ("amount", VBool true); ("note", VInt 0)],
     Err (ErrCollaborator "cannot unmarshal"))
  ∧ ∃ fields', fields'.*1 = ["memo"; "amount"; "note"]
      ∧ VStruct [("memo", VInt 1); ("amount", VBool true); ("note", VInt 0)]
        = VStruct fields'.
Proof.
  assert (unpackTuple (refl := StdCodec.refl) Samples.mixedArgs
            (VStruct [("memo", VInt 0); ("amount", VBool true); ("note", VInt 0)])
            [VInt 1; VInt 2; VInt 3]
          = (VStruct [("memo", VInt 1); ("amount", VBool true); ("note", VInt 0)],
             Err (ErrCollaborator "cannot unmarshal"))) as Hrun
    by (vm_compute; reflexivity).
  split; [exact Hrun|].
  destruct (unpackTuple_struct_any_outcome (refl := StdCodec.refl) _ _ _ _ _ Hrun)
    as (fields' & Hdst & Hnames & _).
  exists fields'. split; [exact Hnames | exact Hdst].
Defined.

(** X13. When [unpackTuple] succeeds on a struct destination and no two
    non-indexed arguments resolve to the same field, the field each
    argument resolves to holds what [set] made of the field's former
    content and the value decoded for that argument. *)
Theorem unpackTuple_struct_values `{refl : Reflection}
    (arguments : Arguments) (fields fields' : list (string * value))
    (marshalledValues : list value) (abi2struct : gmap string string) :
  unpackTuple arguments (VStruct fields) marshalledValues
  = (VStruct fields', Ok ()) →
  mapArgNamesToStructFields (Name <$> NonIndexed arguments) (VStruct fields)
  = Ok abi2struct →
  NoDup ((fun arg => default EmptyString (abi2struct !! Name arg))
           <$> NonIndexed arguments) →
  ∀ k arg, NonIndexed arguments !! k = Some arg →
    ∃ j old v y,
      FieldByName fields (default EmptyString (abi2struct !! Name arg))
      = Some (j, old)
      ∧ marshalledValues !! k = Some v
      ∧ set old v = Ok y
      ∧ fields' !! j = Some (default EmptyString (abi2struct !! Name arg), y).
Proof.
  intros H Hmap Hdup k arg Hk. unfold unpackTuple in H.
  change (map Name (NonIndexed arguments))
    with (Name <$> NonIndexed arguments) in H.
  rewrite Hmap in H.
  destruct (unpackTuple_struct_loop _ _ _ _ _) as [fs r] eqn:Hloop.
  injection H as -> ->.
  by apply (unpackTuple_struct_loop_values _ _ _ _ _ _ Hloop Hdup k arg Hk).
Qed.

Lemma unpackTuple_struct_values_witness :
  ∃ j old v y,
    FieldByName [("amount", VInt 0); ("fee", VInt 0)] "amount" = Some (j, old)
    ∧ [VInt 7] !! 0%nat = Some v
    ∧ StdCodec.set old v = Ok y
    ∧ [("amount", VInt 7); ("fee", VInt 0)] !! j = Some ("amount"%string, y).
Proof.
  destruct (unpackTuple_struct_values (refl := StdCodec.refl) Samples.eventArgs
              [("amount", VInt 0); ("fee", VInt 0)]
              [("amount", VInt 7); ("fee", VInt 0)] [VInt 7]
              (list_to_map [("amount", "amount")])) with
    (k := 0%nat) (arg := Samples.plain "amount" Samples.uint256)
    as (j & old & v & y & Hf & Hv & Hy & Hnew).
  - vm_compute. reflexivity.
  - vm_compute. reflexivity.
  - vm_compute. repeat constructor. intros H. inversion H.
  - reflexivity.
  - exists j, old, v, y. vm_compute in Hf, Hnew.
    split; [exact Hf|]. split; [exact Hv|]. split; [exact Hy | exact Hnew].
Defined.

(** X14. [Unpack] of a single non-indexed argument into a pointer: the
    value is decoded at offset 0 by the codec at the argument's type and
    handed to [unpackAtomic]; a failure of the codec is the outcome and
    leaves the destination as it was. *)
Theorem Unpack_single `{codec : TypeCodec} `{refl : Reflection}
    (arg : Argument) (x : value) (data : list byte) :
  Indexed arg = false →
  (isArrayTy (Type_ arg) = true → has_elems (Type_ arg) = true) →
  Unpack [arg] (PtrTo x) data
  = match toGoType 0 (Type_ arg) data with
    | Ok v => through_ptr (unpackAtomic [arg] x v)
    | Err e => (PtrTo x, Err e)
    | Panic p => (PtrTo x, Panic p)
    end.
Proof.
  intros Hplain Hwf. unfold Unpack, UnpackValues.
  rewrite NonIndexed_filter, filter_cons_True by done.
  rewrite filter_nil. cbn [UnpackValues_loop].
  change (int_mul (int_add (Z.of_nat 0) 0) 32) with 0.
  assert (∃ va, (if isArrayTy (Type_ arg)
                 then size ← getArraySize (Type_ arg);
                      Ok (int_add 0 (int_sub size 1))
                 else Ok 0) = Ok va) as [va ->].
  { destruct (isArrayTy (Type_ arg)) eqn:Harr; [| by eexists].
    destruct (getArraySize_flattenedSize _ Harr (Hwf eq_refl)) as (r & -> & _).
    by eexists. }
  cbn [mbind result_bind].
  destruct (toGoType 0 (Type_ arg) data) as [v| |]; [| done | done].
  cbn [mbind result_bind app].
  assert (isTuple [arg] = false) as -> by done.
  by destruct (unpackAtomic [arg] x v).
Qed.

Lemma Unpack_single_witness :
  Unpack (codec := StdCodec.codec) (refl := StdCodec.refl)
         [Samples.plain "amount" Samples.uint256] (PtrTo (VInt 0)) (packNum 7)
  = (PtrTo (VInt 7), Ok ()).
Proof.
  rewrite (Unpack_single (codec := StdCodec.codec) (refl := StdCodec.refl)).
  - vm_compute. reflexivity.
  - reflexivity.
  - discriminate.
Defined.

(** X15. An argument list whose arguments are all indexed, the empty
    list included, decodes to no value whatever the data: [UnpackValues]
    returns the empty sequence, [Unpack] fails for want of values and
    leaves the destination as it was, and [UnpackIntoMap] succeeds
    without touching the map. *)
Theorem Unpack_all_indexed `{codec : TypeCodec} `{refl : Reflection}
    (arguments : Arguments) (x : value) (m : gmap string value)
    (data : list byte) :
  Forall (fun arg => Indexed arg = true) arguments →
  UnpackValues arguments data = Ok []
  ∧ Unpack arguments (PtrTo x) data = (PtrTo x, Err ErrNoValues)
  ∧ UnpackIntoMap arguments (Some m) data = (Some m, Ok ()).
Proof.
  intros Hall.
  assert (NonIndexed arguments = []) as Hnone.
  { rewrite NonIndexed_filter.
    induction Hall as [|arg rest Harg _ IH]; [done|].
    by rewrite filter_cons_False by (simpl; congruence). }
  assert (UnpackValues arguments data = Ok []) as Hvs
    by (by apply UnpackValues_no_arguments).
  split; [exact Hvs|]. split.
  - unfold Unpack. by rewrite Hvs.
  - unfold UnpackIntoMap, unpackIntoMap. rewrite Hvs, Hnone. reflexivity.
Qed.

Lemma Unpack_all_indexed_witness :
  Unpack (codec := StdCodec.codec) (refl := StdCodec.refl)
         [Samples.indexed "from" Samples.uint256] (PtrTo (VInt 0)) (packNum 7)
  = (PtrTo (VInt 0), Err ErrNoValues).
Proof.
  apply (Unpack_all_indexed (codec := StdCodec.codec) (refl := StdCodec.refl)
           [Samples.indexed "from" Samples.uint256] (VInt 0) ∅ (packNum 7)).
  repeat constructor.
Defined.

Section PackPrefixOutcome.
Context `{codec : TypeCodec}.

Lemma PackPrefix_loop_first_failure (pre rest : Arguments) (args : list value)
    (i : nat) (abiArg : Argument) (a : value) (e : error) (result_ : list PKr) :
  length args = length rest →
  rest !! i = Some abiArg → args !! i = Some a →
  getAllAddress (Type_ abiArg) a = Err e →
  (∀ j abiArg' a', (j < i)%nat → rest !! j = Some abiArg' → args !! j = Some a' →
                   is_Ok (getAllAddress (Type_ abiArg') a') = true) →
  PackPrefix_loop (pre ++ rest) (length pre) args result_ = Err e.
Proof.
  revert pre rest args result_.
  induction i as [|i IH]; intros pre rest args result_
    Hlen Hrest Hargs Hfail Hbefore.
  - destruct rest as [|b rest], args as [|a' args]; try discriminate.
    simpl in Hrest, Hargs. injection Hrest as ->. injection Hargs as ->.
    cbn [PackPrefix_loop]. rewrite list_lookup_middle by done. by rewrite Hfail.
  - destruct rest as [|b rest], args as [|a' args]; try discriminate.
    simpl in Hrest, Hargs, Hlen.
    cbn [PackPrefix_loop]. rewrite list_lookup_middle by done.
    pose proof (Hbefore 0%nat b a' ltac:(lia) eq_refl eq_refl) as Hok.
    destruct (getAllAddress (Type_ b) a') as [p| |]; [| done | done].
    cbn [mbind result_bind].
    replace (pre ++ b :: rest) with ((pre ++ [b]) ++ rest)
      by (by rewrite <- app_assoc).
    replace (S (length pre)) with (length (pre ++ [b]))
      by (rewrite length_app; simpl; lia).
    apply IH; [lia | done | done | done |].
    intros j abiArg' a'' Hj. apply (Hbefore (S j)). lia.
Qed.

End PackPrefixOutcome.

(** X23. [PackPrefix] stops at the first value whose addresses cannot be
    extracted and returns the codec's error for it unchanged. *)
Theorem PackPrefix_first_failure `{codec : TypeCodec}
    (arguments : Arguments) (args : list value)
    (i : nat) (abiArg : Argument) (a : value) (e : error) :
  length args = length arguments →
  arguments !! i = Some abiArg → args !! i = Some a →
  getAllAddress (Type_ abiArg) a = Err e →
  (∀ j abiArg' a', (j < i)%nat →
     arguments !! j = Some abiArg' → args !! j = Some a' →
     is_Ok (getAllAddress (Type_ abiArg') a') = true) →
  PackPrefix arguments args = Err e.
Proof.
  intros Hlen Harg Ha Hfail Hbefore. unfold PackPrefix.
  destruct (decide (len args ≠ len arguments)) as [Hne|_].
  { exfalso. apply Hne. unfold len. lia. }
  pose proof (PackPrefix_loop_first_failure [] arguments args i abiArg a e []
                Hlen Harg Ha Hfail Hbefore) as H.
  simpl in H. by rewrite H.
Qed.

Lemma PackPrefix_first_failure_witness :
  PackPrefix (codec := StdCodec.codec) Samples.addressArgs [VInt 5; VInt 5]
  = Err (ErrCollaborator "type mismatch").
Proof.
  apply (PackPrefix_first_failure (codec := StdCodec.codec) Samples.addressArgs
           [VInt 5; VInt 5] 0 (Samples.plain "to" Samples.addressTy) (VInt 5)).
  - reflexivity.
  - reflexivity.
  - reflexivity.
  - reflexivity.
  - intros j abiArg' a' Hj. lia.
Defined.

(* ===================================================================== *)
(** ** Name helpers *)
(* ===================================================================== *)

Lemma holds_append (c : Ascii.ascii) (s t : string) :
  holds c (String.append s t) = holds c s || holds c t.
Proof.
  induction s as [|d s IH]; [done|].
  change (bool_decide (d = c) || holds c (String.append s t)
          = bool_decide (d = c) || holds c s || holds c t).
  rewrite IH. by rewrite orb_assoc.
Qed.

Lemma ToUpper1_no_underscore (c : Ascii.ascii) :
  c ≠ underscore → holds underscore (ToUpper1 c) = false.
Proof.
  destruct c as [[] [] [] [] [] [] [] []]; intros H;
    try (vm_compute; reflexivity); by destruct H.
Qed.

Lemma ToUpper1_first (c : Ascii.ascii) :
  c ≠ underscore →
  ∃ d rest, ToUpper1 c = String d rest ∧ d ≠ underscore.
Proof.
  destruct c as [[] [] [] [] [] [] [] []]; intros H;
    try (eexists _, _; split; [vm_compute; reflexivity | discriminate]);
    by destruct H.
Qed.

Lemma ToUpper1_ascii (c : Ascii.ascii) :
  isASCII c = true →
  ∃ d, ToUpper1 c = String d EmptyString ∧ ToUpper1 d = String d EmptyString.
Proof.
  destruct c as [[] [] [] [] [] [] [] []]; intros H;
    try discriminate H; eexists; split; vm_compute; reflexivity.
Qed.

Lemma capitalise_loop_first (input : string) (c : Ascii.ascii) (rest : string) :
  capitalise_loop input = String c rest → c ≠ underscore.
Proof.
  induction input as [|d input IH]; [done|]. simpl.
  destruct (decide (d = underscore)); [done|]. by intros [= <- <-].
Qed.

Lemma capitalise_loop_keeps (c : Ascii.ascii) (rest : string) :
  c ≠ underscore → capitalise_loop (String c rest) = String c rest.
Proof. intros H. simpl. by destruct (decide (c = underscore)). Qed.

Lemma capitalise_loop_empty (input : string) :
  capitalise_loop input = EmptyString
  ↔ ∀ c, holds c input = true → c = underscore.
Proof.
  induction input as [|d input IH].
  - split; [intros _ c H; discriminate H | done].
  - simpl. destruct (decide (d = underscore)) as [->|Hd].
    + rewrite IH. split.
      * intros H c Hc. apply orb_true_iff in Hc as [Hc|Hc]; [| by apply H].
        by apply bool_decide_eq_true in Hc.
      * intros H c Hc. apply H. rewrite Hc. apply orb_true_r.
    + split; [done|]. intros H. exfalso. apply Hd, H.
      by rewrite bool_decide_eq_true_2.
Qed.

(** X16. [capitalise] drops every prefixing underscore: the outcome never
    starts with an underscore, a prefixing underscore makes no
    difference, and the outcome is empty exactly for the strings made of
    underscores only (the empty string among them). *)
Theorem capitalise_underscores (input : string) :
  (∀ rest, capitalise input ≠ String underscore rest)
  ∧ capitalise (String underscore input) = capitalise input
  ∧ (capitalise input = EmptyString
     ↔ ∀ c, holds c input = true → c = underscore).
Proof.
  split; [| split].
  - intros rest. unfold capitalise.
    destruct (capitalise_loop input) as [|c r] eqn:Hloop; [done|].
    apply capitalise_loop_first in Hloop.
    destruct (ToUpper1_first c Hloop) as (d & r' & -> & Hd).
    simpl. by intros [= ->].
  - unfold capitalise. simpl. by destruct (decide (underscore = underscore)).
  - rewrite <- capitalise_loop_empty. unfold capitalise.
    destruct (capitalise_loop input) as [|c r] eqn:Hloop; [done|].
    apply capitalise_loop_first in Hloop.
    destruct (ToUpper1_first c Hloop) as (d & r' & -> & Hd). done.
Qed.

(** X17. [capitalise] applied twice is [capitalise] applied once, when
    the first byte after the underscores is ASCII. (A byte from 0x80 on
    is replaced by three, of which the first is replaced again.) *)
Theorem capitalise_idempotent (input : string) :
  (∀ c rest, capitalise_loop input = String c rest → isASCII c = true) →
  capitalise (capitalise input) = capitalise input.
Proof.
  intros Hascii. unfold capitalise at 2 3.
  destruct (capitalise_loop input) as [|c r] eqn:Hloop; [done|].
  pose proof (capitalise_loop_first _ _ _ Hloop) as Hc.
  destruct (ToUpper1_ascii c (Hascii c r eq_refl)) as (d & Hd & Hdd).
  destruct (ToUpper1_first c Hc) as (d' & r' & Hd' & Hne).
  rewrite Hd in Hd'. injection Hd' as <- <-.
  rewrite Hd.
  change (String.append (String d EmptyString) r) with (String d r).
  unfold capitalise. rewrite capitalise_loop_keeps by done. by rewrite Hdd.
Qed.

Lemma capitalise_idempotent_witness :
  capitalise (capitalise "__gas_limit") = capitalise "__gas_limit"
  ∧ capitalise "__gas_limit" = "Gas_limit"%string.
Proof.
  split; [| reflexivity].
  apply (capitalise_idempotent "__gas_limit").
  intros c rest H. vm_compute in H. injection H as <- <-. reflexivity.
Defined.

Lemma Split_nonempty (input : string) : Split input ≠ [].
Proof.
  induction input as [|c input IH]; [done|]. simpl.
  destruct (decide (c = underscore)); [done|]. by destruct (Split input).
Qed.

Lemma Split_no_underscore (input : string) :
  Forall (fun s => holds underscore s = false) (Split input).
Proof.
  induction input as [|c input IH]; [by repeat constructor|]. simpl.
  destruct (decide (c = underscore)) as [|Hc]; [by constructor|].
  destruct (Split input) as [|s parts]; [by repeat constructor; simpl;
    rewrite bool_decide_eq_false_2|].
  apply Forall_cons in IH as [Hs Hparts]. constructor; [| done].
  simpl. by rewrite bool_decide_eq_false_2.
Qed.

Lemma Split_append (s t : string) :
  Split (String.append s (String underscore t)) = Split s ++ Split t.
Proof.
  induction s as [|c s IH]; simpl.
  - by destruct (decide (underscore = underscore)).
  - destruct (decide (c = underscore)); [by rewrite IH|].
    rewrite IH. pose proof (Split_nonempty s). by destruct (Split s).
Qed.

Lemma string_append_assoc (a b c : string) :
  String.append (String.append a b) c = String.append a (String.append b c).
Proof.
  induction a as [|d a IH]; [done|].
  change (String d (String.append (String.append a b) c)
          = String d (String.append a (String.append b c))).
  by rewrite IH.
Qed.

Lemma string_append_empty (a : string) : String.append a EmptyString = a.
Proof.
  induction a as [|d a IH]; [done|].
  change (String d (String.append a EmptyString) = String d a). by rewrite IH.
Qed.

Lemma Join_app (a b : list string) :
  Join (a ++ b) = String.append (Join a) (Join b).
Proof.
  induction a as [|s a IH]; [done|]. simpl. rewrite IH.
  by rewrite string_append_assoc.
Qed.

(** X18. The outcome of [ToCamelCase] holds no underscore. *)
Theorem ToCamelCase_no_underscore (input : string) :
  holds underscore (ToCamelCase input) = false.
Proof.
  unfold ToCamelCase. pose proof (Split_no_underscore input) as H.
  induction H as [|s parts Hs _ IH]; [done|].
  cbn [fmap list_fmap Join foldr]. rewrite holds_append. fold (Join).
  apply orb_false_iff. split; [| exact IH].
  destruct s as [|c rest]; [done|]. simpl in Hs.
  apply orb_false_iff in Hs as [Hc Hrest].
  apply bool_decide_eq_false in Hc.
  by rewrite holds_append, ToUpper1_no_underscore, Hrest.
Qed.

(** X19. [ToCamelCase] works piece by piece: the camel case of two
    strings joined by an underscore is the camel case of the first
    followed by that of the second. *)
Theorem ToCamelCase_underscore (s t : string) :
  ToCamelCase (String.append s (String underscore t))
  = String.append (ToCamelCase s) (ToCamelCase t).
Proof.
  unfold ToCamelCase. by rewrite Split_append, fmap_app, Join_app.
Qed.

(** X20. [ToCamelCase] is [capitalise] on every piece between the
    underscores; on a string without underscore the two agree. *)
Theorem ToCamelCase_capitalise (input : string) :
  ToCamelCase input = Join (capitalise <$> Split input)
  ∧ (holds underscore input = false → ToCamelCase input = capitalise input).
Proof.
  assert (∀ parts, Forall (fun s => holds underscore s = false) parts →
            (fun s => match s with
                      | EmptyString => s
                      | String c rest => String.append (ToUpper1 c) rest
                      end) <$> parts = capitalise <$> parts) as Hparts.
  { induction 1 as [|s parts Hs _ IH]; [done|].
    cbn [fmap list_fmap]. f_equal; [| exact IH].
    destruct s as [|c rest]; [done|]. simpl in Hs.
    apply orb_false_iff in Hs as [Hc _]. apply bool_decide_eq_false in Hc.
    unfold capitalise. by rewrite capitalise_loop_keeps. }
  assert (ToCamelCase input = Join (capitalise <$> Split input)) as Heq.
  { unfold ToCamelCase. by rewrite Hparts by apply Split_no_underscore. }
  split; [exact Heq|]. intros Hno. rewrite Heq.
  assert (Split input = [input]) as ->.
  { clear Heq. induction input as [|c input IH]; [done|]. simpl in *.
    apply orb_false_iff in Hno as [Hc Hrest]. apply bool_decide_eq_false in Hc.
    destruct (decide (c = underscore)); [done|]. by rewrite (IH Hrest). }
  cbn [fmap list_fmap Join foldr]. apply string_append_empty.
Qed.

Lemma ToCamelCase_capitalise_witness :
  ToCamelCase "amount" = capitalise "amount"
  ∧ ToCamelCase "gas_limit" = "GasLimit"%string.
Proof.
  split; [| reflexivity].
  destruct (ToCamelCase_capitalise "amount") as [_ H]. apply H. reflexivity.
Defined.

(* ===================================================================== *)
(** ** Further properties: block names *)
(* ===================================================================== *)

Lemma byteLength_bound (z : Z) :
  0 <= z → z < 256 ^ Z.of_nat (Consensus.byteLength z).
Proof.
  intros Hz. unfold Consensus.byteLength.
  destruct (decide (z = 0)) as [->|Hne]; [done|].
  pose proof (Z.log2_nonneg z).
  pose proof (Z.log2_spec z ltac:(lia)) as [_ Hlt].
  rewrite Z2Nat.id by (pose proof (Z.div_pos (Z.log2 z) 8); lia).
  change 256 with (2 ^ 8). rewrite <- Z.pow_mul_r by
    (try lia; pose proof (Z.div_pos (Z.log2 z) 8); lia).
  eapply Z.lt_le_trans; [exact Hlt|].
  apply Z.pow_le_mono_r; [lia|].
  pose proof (Z.mul_succ_div_gt (Z.log2 z) 8 ltac:(lia)). lia.
Qed.

Lemma be_value_Bytes (x : Z) : be_value (Consensus.Bytes x) = Z.abs x.
Proof.
  unfold Consensus.Bytes. rewrite be_value_be_bytes.
  apply Z.mod_small. split; [lia|]. apply byteLength_bound. lia.
Qed.

(** X21. For one prefix and hashes of the fixed length, [makeBlockName]
    gives different names to different pairs of a block number below
    2^63 and a hash. *)
Theorem makeBlockName_injective (pre : string) (num1 num2 : Z)
    (hash1 hash2 : list byte) :
  0 <= num1 <= int_max → 0 <= num2 <= int_max →
  length hash1 = length hash2 →
  Consensus.makeBlockName pre num1 hash1 = Consensus.makeBlockName pre num2 hash2 →
  num1 = num2 ∧ hash1 = hash2.
Proof.
  intros H1 H2 Hlen Heq. unfold Consensus.makeBlockName in Heq.
  rewrite <- !app_assoc in Heq. apply app_inv_head in Heq.
  rewrite !wrap_int_id in Heq by (unfold in_int, int_min; lia).
  apply app_inj_2 in Heq as [Hnum Hhash]; [| done].
  split; [| done].
  apply (f_equal be_value) in Hnum. rewrite !be_value_Bytes in Hnum. lia.
Qed.

Lemma makeBlockName_injective_witness :
  256 = 256 ∧ [Byte.x07] = [Byte.x07].
Proof.
  apply (makeBlockName_injective "blk" 256 256 [Byte.x07] [Byte.x07]).
  - vm_compute. split; discriminate.
  - vm_compute. split; discriminate.
  - reflexivity.
  - reflexivity.
Defined.

(** X22. [makeBlockName] reads the block number as a signed number and
    writes its absolute value: a block number from 2^63 on gets the name
    of the block number that is as far below 2^64 as it is above 0. *)
Theorem makeBlockName_collision (pre : string) (num : Z) (hash : list byte) :
  0 < num <= int_max →
  Consensus.makeBlockName pre (2 ^ 64 - num) hash
  = Consensus.makeBlockName pre num hash.
Proof.
  intros Hnum. unfold Consensus.makeBlockName. do 2 f_equal.
  rewrite (wrap_int_id num) by (unfold in_int, int_min; lia).
  assert (wrap_int (2 ^ 64 - num) = - num) as ->.
  { unfold wrap_int, int_max in *.
    replace (2 ^ 64 - num + 2 ^ 63) with ((2 ^ 63 - num) + 1 * 2 ^ 64) by lia.
    rewrite Z.mod_add by lia. rewrite Z.mod_small by lia. lia. }
  unfold Consensus.Bytes. by rewrite Z.abs_opp.
Qed.

Lemma makeBlockName_collision_witness :
  Consensus.makeBlockName "blk" (2 ^ 64 - 1) [Byte.x07]
  = Consensus.makeBlockName "blk" 1 [Byte.x07].
Proof.
  apply (makeBlockName_collision "blk" 1 [Byte.x07]).
  vm_compute. split; [reflexivity | discriminate].
Defined.
